(** * USERQUERY (log.js): a shallow embedding and its verified properties

    The development follows [src/log.js] function by function.

    Conventions of the embedding.
    - A JavaScript string is a Rocq [string]; every character stands for one
      UTF-16 code unit below 256, so [charCodeAt] is the character's code and
      [length] is [String.length].
    - A JavaScript number that the program only uses as an integer counter or
      identifier is a [Z]; the 32-bit coercions of the bit operators are
      written out ([toInt32], [toUint32]).
    - [null] and [undefined] are [None] where the program only tests them for
      truthiness; a value that the program prints, forwards or serialises is
      a [JsValue], which keeps [undefined], [null], numbers, strings, BigInts
      and the objects that occur apart.
    - A JavaScript object used as a record (a configuration, the data of an
      event) is a finite map from its own keys to values.
    - The target of a click is a [Node]: an element, or a node without a tag
      name and without the attribute methods.
    - Module-level variables, the DOM bookkeeping, storage, timers, the
      console and the network are fields of one record [World], threaded
      through every operation; an operation that can throw returns a
      [Completion]. *)

From Stdlib Require Import ZArith Ascii String List Lia Bool.
From stdpp Require Import gmap strings list.

Open Scope string_scope.
Open Scope list_scope.
Open Scope Z_scope.

(** ** JavaScript string and number primitives used by the program *)


Definition charCode (c : ascii) : Z := Z.of_N (N_of_ascii c).

(** [String.prototype.toLowerCase] on code units below 256: A-Z and the
    Latin-1 capitals U+00C0..U+00DE (except the multiplication sign U+00D7)
    move up by 32; everything else is unchanged. *)
Definition lowerChar (c : ascii) : ascii :=
  let n := charCode c in
  if ((65 <=? n) && (n <=? 90))
     || ((192 <=? n) && (n <=? 222) && negb (n =? 215))
  then ascii_of_N (Z.to_N (n + 32))
  else c.

Fixpoint toLowerCase (s : string) : string :=
  match s with
  | EmptyString => EmptyString
  | String c r => String (lowerChar c) (toLowerCase r)
  end.

(** White space and line terminators recognised by [String.prototype.trim]
    among the code units below 256: TAB, LF, VT, FF, CR, SP, NBSP. *)
Definition isWhiteSpace (c : ascii) : bool :=
  let n := charCode c in
  ((9 <=? n) && (n <=? 13)) || (n =? 32) || (n =? 160).

Fixpoint trimStart (s : string) : string :=
  match s with
  | EmptyString => EmptyString
  | String c r => if isWhiteSpace c then trimStart r else s
  end.

Fixpoint trimEnd (s : string) : string :=
  match s with
  | EmptyString => EmptyString
  | String c r =>
      match trimEnd r with
      | EmptyString => if isWhiteSpace c then EmptyString else String c EmptyString
      | r' => String c r'
      end
  end.

Definition trim (s : string) : string := trimEnd (trimStart s).

(** [Array.prototype.join]. *)
Fixpoint join (sep : string) (parts : list string) : string :=
  match parts with
  | [] => ""
  | [p] => p
  | p :: rest => p +:+ sep +:+ join sep rest
  end.

(** Truthiness of a string value, and of a possibly-null string. *)
Definition truthy (s : string) : bool :=
  match s with EmptyString => false | _ => true end.

Definition truthyOpt (o : option string) : bool :=
  match o with Some s => truthy s | None => false end.

(** [String.prototype.substr(start, len)] for in-range arguments. *)
Fixpoint substr (start len : nat) (s : string) : string :=
  match start, s with
  | O, _ =>
      match len, s with
      | S l, String c r => String c (substr O l r)
      | _, _ => EmptyString
      end
  | S n, String _ r => substr n len r
  | S _, EmptyString => EmptyString
  end.

(** 32-bit coercions of the bit operators. *)
Definition toUint32 (z : Z) : Z := z mod 2 ^ 32.
Definition toInt32 (z : Z) : Z := (z + 2 ^ 31) mod 2 ^ 32 - 2 ^ 31.

(** [a ^ b] and [a << k] (for 0 <= k < 32): the operands are coerced to
    32-bit integers and so is the result. *)
Definition jsXor (a b : Z) : Z := toInt32 (Z.lxor (toInt32 a) (toInt32 b)).
Definition jsShl (a k : Z) : Z := toInt32 (Z.shiftl (toInt32 a) k).

(** [Number.prototype.toString(radix)] for a non-negative integer:
    digits 0-9 then a-z, most significant first, no leading zero. *)
Definition digitChar (d : Z) : ascii :=
  if d <? 10 then ascii_of_N (Z.to_N (48 + d)) else ascii_of_N (Z.to_N (87 + d)).

Fixpoint digitsFrom (fuel : nat) (radix n : Z) (acc : string) : string :=
  match fuel with
  | O => acc
  | S f =>
      let acc' := String (digitChar (n mod radix)) acc in
      if n / radix =? 0 then acc' else digitsFrom f radix (n / radix) acc'
  end.

Definition numberToString (radix n : Z) : string :=
  digitsFrom (S (Z.to_nat (Z.log2 n))) radix n "".

(** Reading a string of digits back, to state what [numberToString] prints. *)
Definition digitValue (c : ascii) : Z :=
  if charCode c <? 58 then charCode c - 48 else charCode c - 87.

Fixpoint parseDigits (radix acc : Z) (s : string) : Z :=
  match s with
  | EmptyString => acc
  | String c r => parseDigits radix (acc * radix + digitValue c) r
  end.


(** ** Values and completions *)

(** The objects that occur as values: the [className] of an SVG element,
    which is an [SVGAnimatedString] and not a string, and a plain object that
    contains itself, as the data of a custom event may.  The program does
    nothing with the values of caller data but copy and serialise them, so
    data that holds other objects which [JSON.stringify] accepts behaves as
    data of primitive values does. *)
Inductive JsObject :=
| SVGAnimatedString (baseVal : string)
| CircularObject.

(** The JavaScript values that occur in configurations, in event payloads
    and in the [count] slot of a registry entry. *)
Inductive JsValue :=
| VUndefined
| VNull
| VBool (b : bool)
| VNum (n : Z)
| VNaN
| VStr (s : string)
| VBigInt (n : Z)
| VObject (o : JsObject).

#[global] Instance JsObject_eq_dec : EqDecision JsObject.
Proof. solve_decision. Defined.
#[global] Instance JsValue_eq_dec : EqDecision JsValue.
Proof. solve_decision. Defined.

(** [String(v)], as string concatenation and template literals apply it. *)
Definition toStr (v : JsValue) : string :=
  match v with
  | VUndefined => "undefined"
  | VNull => "null"
  | VBool true => "true"
  | VBool false => "false"
  | VNum n => if n <? 0 then "-" +:+ numberToString 10 (- n) else numberToString 10 n
  | VNaN => "NaN"
  | VStr s => s
  | VBigInt n => if n <? 0 then "-" +:+ numberToString 10 (- n) else numberToString 10 n
  | VObject (SVGAnimatedString _) => "[object SVGAnimatedString]"
  | VObject CircularObject => "[object Object]"
  end.

(** Truthiness of a value. *)
Definition truthyValue (v : JsValue) : bool :=
  match v with
  | VUndefined | VNull | VNaN => false
  | VBool b => b
  | VNum n | VBigInt n => negb (n =? 0)
  | VStr s => truthy s
  | VObject _ => true
  end.

(** [v === 1]. *)
Definition strictEqualsOne (v : JsValue) : bool :=
  match v with VNum 1 => true | _ => false end.

Definition ofOptString (o : option string) : JsValue :=
  match o with Some s => VStr s | None => VNull end.

Inductive JsError := TypeError | ReferenceError | DOMException.

(** How a call ends: with a value, or by throwing. *)
Inductive Completion (A : Type) :=
| Normal (a : A)
| Throw (e : JsError).
Arguments Normal {A} a.
Arguments Throw {A} e.

(** [v + 1]: a number is added to, a string or an object is concatenated
    with, and a BigInt cannot be mixed with the number 1. *)
Definition plusOne (v : JsValue) : Completion JsValue :=
  match v with
  | VUndefined | VNaN => Normal VNaN
  | VNull => Normal (VNum 1)
  | VBool b => Normal (VNum (if b then 2 else 1))
  | VNum n => Normal (VNum (n + 1))
  | VStr s => Normal (VStr (s +:+ "1"))
  | VBigInt _ => Throw TypeError
  | VObject _ => Normal (VStr (toStr v +:+ "1"))
  end.

(** [JSON.stringify] rejects a BigInt and a circular structure with a
    TypeError; every other value here it serialises. *)
Definition serialisable (v : JsValue) : bool :=
  match v with
  | VBigInt _ | VObject CircularObject => false
  | _ => true
  end.

(** ** Elements and other nodes *)

(** An object with the interface of a DOM element: a tag name (possibly
    missing, for an element-like object made by hand), its attributes, its
    text content and the three attribute methods.  The DOM property [id]
    reflects the attribute [id] and reads as the empty string when the
    attribute is absent; [getAttribute] answers [null] for an absent
    attribute.  [isSVG] tells an SVG element, whose [className] is an
    [SVGAnimatedString] object, from the others, whose [className] is the
    string of the attribute [class]. *)
Record Element := {
  tagName : option string;
  isSVG : bool;
  attributes : gmap string string;
  textContent : string
}.

(** What a click can hit: an element, or a node that is not one (the
    document, a text node), which has neither a tag name nor the attribute
    methods. *)
Inductive Node :=
| ElementNode (el : Element)
| OtherNode.

Definition getAttribute (el : Element) (name : string) : option string :=
  attributes el !! name.

Definition hasAttribute (el : Element) (name : string) : bool :=
  bool_decide (is_Some (attributes el !! name)).

Definition setAttribute (el : Element) (name value : string) : Element :=
  {| tagName := tagName el;
     isSVG := isSVG el;
     attributes := <[name := value]> (attributes el);
     textContent := textContent el |}.

Definition elementId (el : Element) : string := default "" (getAttribute el "id").

Definition className (el : Element) : JsValue :=
  if isSVG el then VObject (SVGAnimatedString (default "" (getAttribute el "class")))
  else VStr (default "" (getAttribute el "class")).

(** ** generateElementSignature (log.js 43-60) *)

(** [parts.push(x)] guarded by [if (cond)]. *)
Definition pushIf (cond : bool) (x : string) (parts : list string) : list string :=
  if cond then parts ++ [x] else parts.

Definition generateElementSignature (element : option Element) : option string :=
  match element with
  | None => None
  | Some el =>
      match tagName el with
      | None => None
      | Some tag =>
          if negb (truthy tag) then None
          else
            let parts := [toLowerCase tag] in
            let parts := pushIf (truthy (elementId el)) ("id:" +:+ elementId el) parts in
            let parts :=
              pushIf (truthyValue (className el)) ("class:" +:+ toStr (className el)) parts in
            let nameAttr := getAttribute el "name" in
            let parts := pushIf (truthyOpt nameAttr) ("name:" +:+ default "" nameAttr) parts in
            let typeAttr := getAttribute el "type" in
            let parts := pushIf (truthyOpt typeAttr) ("type:" +:+ default "" typeAttr) parts in
            let text := trim (textContent el) in
            let parts :=
              pushIf (truthy text && bool_decide (String.length text < 50)%nat)
                     ("text:" +:+ text) parts in
            Some (join "|" parts)
      end
  end.

(** ** fnv32a (log.js 66-73) *)

(** One round of the loop body: [hash ^= c] then
    [hash += (hash << 1) + (hash << 4) + (hash << 7) + (hash << 8) + (hash << 24)].
    The additions are ordinary number additions: no wrap-around happens
    there, the next [^=] or the final [>>> 0] coerces. *)
Definition fnvRound (hash : Z) (c : Z) : Z :=
  let hash := jsXor hash c in
  hash + (jsShl hash 1 + jsShl hash 4 + jsShl hash 7 + jsShl hash 8 + jsShl hash 24).

Fixpoint fnvLoop (str : string) (hash : Z) : Z :=
  match str with
  | EmptyString => hash
  | String c rest => fnvLoop rest (fnvRound hash (charCode c))
  end.

Definition fnvSeed : Z := 0x811c9dc5.

Definition fnv32aValue (str : string) : Z := toUint32 (fnvLoop str fnvSeed).

Definition fnv32a (str : string) : string := numberToString 36 (fnv32aValue str).

(** The textbook 32-bit FNV-1a: xor the code in, multiply by the FNV prime,
    keep 32 bits. *)
Definition fnvPrime : Z := 16777619.

Fixpoint fnv1aReference (str : string) (h : Z) : Z :=
  match str with
  | EmptyString => h
  | String c rest => fnv1aReference rest ((Z.lxor h (charCode c) * fnvPrime) mod 2 ^ 32)
  end.

(** The signature read as a list of tokens: one per attribute value that is
    there and not empty, and one for a short text. *)
Definition token (label : string) (value : option string) : list string :=
  match value with
  | Some v => if truthy v then [label +:+ v] else []
  | None => []
  end.

Definition textToken (text : string) : list string :=
  if truthy text && bool_decide (String.length text < 50)%nat
  then ["text:" +:+ text] else [].

(** The class token: on an SVG element the template literal prints the
    [SVGAnimatedString] object, whatever the attribute [class] holds. *)
Definition classToken (el : Element) : list string :=
  if isSVG el then ["class:[object SVGAnimatedString]"]
  else token "class:" (attributes el !! "class").

Definition signatureTokens (tag : string) (el : Element) : list string :=
  [toLowerCase tag]
    ++ token "id:" (attributes el !! "id")
    ++ classToken el
    ++ token "name:" (attributes el !! "name")
    ++ token "type:" (attributes el !! "type")
    ++ textToken (trim (textContent el)).

(** Two inputs with the same static attributes. *)
Definition sameStaticAttributes (e1 e2 : Element) : Prop :=
  tagName e1 = tagName e2
  ∧ isSVG e1 = isSVG e2
  ∧ attributes e1 !! "id" = attributes e2 !! "id"
  ∧ attributes e1 !! "class" = attributes e2 !! "class"
  ∧ attributes e1 !! "name" = attributes e2 !! "name"
  ∧ attributes e1 !! "type" = attributes e2 !! "type"
  ∧ textContent e1 = textContent e2.

(** ** The identity registry [__zenMapping] (log.js 37) *)

Record ZenEntry := { id : string; count : Z }.

#[global] Instance ZenEntry_eq_dec : EqDecision ZenEntry.
Proof. solve_decision. Defined.

(** [__zenMapping] is created by the object literal [{}], so besides the
    entries the program stores in it, the [in] operator and the bracket read
    also see the properties it inherits from [Object.prototype].  The host is
    taken to leave [Object.prototype] as the language defines it. *)
Definition objectPrototypeKeys : list string :=
  [ "constructor"; "__defineGetter__"; "__defineSetter__"; "hasOwnProperty";
    "__lookupGetter__"; "__lookupSetter__"; "isPrototypeOf";
    "propertyIsEnumerable"; "toString"; "valueOf"; "__proto__";
    "toLocaleString" ].

(** [ownEntries]: the properties stored by [generateStableZenId].
    [countedBuiltins]: the inherited keys whose value (a built-in function, or
    [Object.prototype] itself for [__proto__]) has received a [count] property
    from the statement [entry.count++]. *)
Record ZenMapping := {
  ownEntries : gmap string ZenEntry;
  countedBuiltins : gset string
}.

Definition emptyZenMapping : ZenMapping :=
  {| ownEntries := ∅; countedBuiltins := ∅ |}.

(** What [__zenMapping[signature]] evaluates to when
    [signature in __zenMapping] holds. *)
Inductive Slot :=
| OwnSlot (e : ZenEntry)
| BuiltinSlot (key : string)      (* an object reached through the prototype *)
| PrototypeCountSlot.             (* [Object.prototype.count], the number NaN *)

Definition prototypeHasCount (m : ZenMapping) : bool :=
  bool_decide ("__proto__" ∈ countedBuiltins m).

Definition lookupIn (m : ZenMapping) (signature : string) : option Slot :=
  match ownEntries m !! signature with
  | Some e => Some (OwnSlot e)
  | None =>
      if bool_decide (signature ∈ objectPrototypeKeys) then Some (BuiltinSlot signature)
      else if bool_decide (signature = "count") && prototypeHasCount m
           then Some PrototypeCountSlot
           else None
  end.

(** [entry.count]. *)
Definition readCount (m : ZenMapping) (slot : Slot) : JsValue :=
  match slot with
  | OwnSlot e => VNum (count e)
  | BuiltinSlot key =>
      if bool_decide (key ∈ countedBuiltins m) || prototypeHasCount m
      then VNaN else VUndefined
  | PrototypeCountSlot => VNaN
  end.

(** ** generateStableZenId (log.js 79-93) *)

Definition generateStableZenId (element : option Element) (m : ZenMapping)
  : Completion (option string) * ZenMapping :=
  match generateElementSignature element with
  | None => (Normal None, m)
  | Some signature =>
      if negb (truthy signature) then (Normal None, m)
      else
        let baseHash := "zen-" +:+ fnv32a signature in
        match lookupIn m signature with
        | None =>
            (Normal (Some baseHash),
             {| ownEntries := <[signature := {| id := baseHash; count := 1 |}]> (ownEntries m);
                countedBuiltins := countedBuiltins m |})
        | Some entry =>
            let newId : Completion string :=
              if strictEqualsOne (readCount m entry)
              then Normal (baseHash +:+ "-2")
              else match plusOne (readCount m entry) with
                   | Normal next => Normal (baseHash +:+ "-" +:+ toStr next)
                   | Throw e => Throw e
                   end in
            match newId with
            | Throw e => (Throw e, m)
            | Normal newId =>
                (* entry.count++ *)
                match entry with
                | OwnSlot e =>
                    (Normal (Some newId),
                     {| ownEntries := <[signature := {| id := id e; count := count e + 1 |}]> (ownEntries m);
                        countedBuiltins := countedBuiltins m |})
                | BuiltinSlot key =>
                    (Normal (Some newId),
                     {| ownEntries := ownEntries m;
                        countedBuiltins := {[key]} ∪ countedBuiltins m |})
                | PrototypeCountSlot =>
                    (* strict mode: a property cannot be created on a number *)
                    (Throw TypeError, m)
                end
            end
        end
  end.

(** ** labelElement (log.js 98-105) *)

(** The first thing [labelElement] does is to call [el.hasAttribute]: on a
    node without that method the call throws a TypeError.  The result carries
    the node as the call leaves it. *)
Definition labelElement (el : Node) (m : ZenMapping)
  : Completion unit * Node * ZenMapping :=
  match el with
  | OtherNode => (Throw TypeError, el, m)
  | ElementNode e =>
      if negb (hasAttribute e "data-zenid") then
        match generateStableZenId (Some e) m with
        | (Normal (Some zenId), m') =>
            if truthy zenId
            then (Normal tt, ElementNode (setAttribute e "data-zenid" zenId), m')
            else (Normal tt, el, m')
        | (Normal None, m') => (Normal tt, el, m')
        | (Throw err, m') => (Throw err, el, m')
        end
      else (Normal tt, el, m)
  end.

(** ** Module-level state (log.js 17-37) *)

Definition ENDPOINT : string := "https://www.api.userquery.tech/api/sites".

(** A configuration is a JavaScript object: a finite map from its own keys
    to their values.  A key can be absent, or present with any value,
    [undefined] included. *)
Abbreviation Config := (gmap string JsValue).

Definition DEFAULT_CONFIG : Config :=
  <[ "siteId" := VStr "UNKNOWN_SITE" ]> {[ "batchInterval" := VNum 5000 ]}.

(** The object literal [{}]. *)
Definition emptyConfig : Config := ∅.

(** [Object.assign(target, source)]: every own key of [source] is copied
    with its value, whatever that value is, over what [target] holds. *)
Definition objectAssign (target source : Config) : Config := source ∪ target.

(** [o.key], for a key that [Object.prototype] does not have: the value of
    the own key, [undefined] when there is none. *)
Definition property (o : gmap string JsValue) (key : string) : JsValue :=
  default VUndefined (o !! key).

Inductive Target := Document | Window.

Inductive HandlerKind :=
| ClickHandler | PageLoadHandler | UnloadHandler | ScrollHandler
| ResizeHandler | VisibilityHandler | ErrorHandler.

(** A handler is a closure: [closure] tells apart the closures that different
    calls of [attachCoreEventListeners] create. *)
Record Handler := { kind : HandlerKind; closure : nat }.

(** An element of [_eventListeners]; [options] is [Some true] for
    [{ capture: true }] and [None] when the key is missing. *)
Record ListenerEntry := {
  target : Target;
  event : string;
  handler : Handler;
  options : option bool
}.

(** A listener as the DOM keeps it: type, callback and capture flag. *)
Record Registration := {
  regTarget : Target;
  regEvent : string;
  regHandler : Handler;
  regCapture : bool
}.

#[global] Instance Target_eq_dec : EqDecision Target.
Proof. solve_decision. Defined.
#[global] Instance HandlerKind_eq_dec : EqDecision HandlerKind.
Proof. solve_decision. Defined.
#[global] Instance Handler_eq_dec : EqDecision Handler.
Proof. solve_decision. Defined.
#[global] Instance Registration_eq_dec : EqDecision Registration.
Proof. solve_decision. Defined.

(** A tracked event is a JavaScript object: a finite map from keys to values. *)
Abbreviation TrackedEvent := (gmap string JsValue).

Record Agent := {
  _initialized : bool;
  _siteId : JsValue;
  _userId : option string;
  _config : Config;
  _eventListeners : list ListenerEntry;
  _eventBatch : list TrackedEvent;
  _batchTimer : option Z;
  __zenMapping : ZenMapping
}.

Definition initialAgent : Agent :=
  {| _initialized := false; _siteId := VNull; _userId := None;
     _config := emptyConfig; _eventListeners := []; _eventBatch := [];
     _batchTimer := None; __zenMapping := emptyZenMapping |}.

(** ** The host environment *)

(** [localStorage]: either every access throws, or it is a key-value area
    whose [setItem] may be refused. *)
Inductive Storage :=
| StorageInaccessible
| StorageArea (items : gmap string string) (writable : bool).

(** The global [crypto]: not declared at all, declared but [undefined] or
    [null], or an object.  [randomUUID] is [Some u] when the method exists
    (and its next call returns [u]); [getRandomValues] is [Some f] when the
    method exists (and its next call stores [f i] at index [i]). *)
Record CryptoObject := {
  randomUUID : option string;
  getRandomValues : option (nat → Z)
}.

Inductive CryptoGlobal :=
| CryptoUndeclared
| CryptoNullish
| CryptoPresent (c : CryptoObject).

(** The global [fetch]: not declared at all (a browser without it), declared
    but not a function, or the function. *)
Inductive FetchGlobal :=
| FetchUndeclared
| FetchNotCallable
| FetchFunction.

Inductive ConsoleLine :=
| Warn (msg : string)
| WarnWith (msg : string) (arg : JsValue)
| Log (msg : string).

(** The object handed to [JSON.stringify] in [flushEventBatch]; the
    serialisation happens during the call, so the request carries the events
    as they are at that moment. *)
Record EventsPayload := {
  userId : option string;
  payloadSiteId : JsValue;
  events : list TrackedEvent
}.

Record Request := { url : string; body : EventsPayload }.

Inductive FetchOutcome :=
| ResponseOk
| ResponseNotOk (status : Z)
| NetworkError.

Record Page := {
  now : string;            (* new Date().toISOString() *)
  href : string;           (* window.location.href *)
  userAgent : string;
  screenWidth : Z;
  screenHeight : Z;
  language : string;
  referrer : string;
  readyState : string;
  title : string
}.

Record Host := {
  localStorage : Storage;
  crypto : CryptoGlobal;
  fetch : FetchGlobal;
  console : list ConsoleLine;
  listeners : list Registration;       (* listeners the DOM holds *)
  intervals : list (Z * JsValue);      (* running timers: id, period as passed *)
  nextTimerId : Z;
  nextClosure : nat;
  fetched : list Request;              (* every call of fetch, oldest first *)
  pending : list Request;              (* calls whose promise is not settled *)
  page : Page
}.

Record World := { agent : Agent; host : Host }.

(** Field updates. *)
Definition updAgent (f : Agent → Agent) (w : World) : World :=
  {| agent := f (agent w); host := host w |}.
Definition updHost (f : Host → Host) (w : World) : World :=
  {| agent := agent w; host := f (host w) |}.

Definition set_initialized (v : bool) (a : Agent) : Agent :=
  {| _initialized := v; _siteId := _siteId a; _userId := _userId a;
     _config := _config a; _eventListeners := _eventListeners a;
     _eventBatch := _eventBatch a; _batchTimer := _batchTimer a;
     __zenMapping := __zenMapping a |}.
Definition set_siteId (v : JsValue) (a : Agent) : Agent :=
  {| _initialized := _initialized a; _siteId := v; _userId := _userId a;
     _config := _config a; _eventListeners := _eventListeners a;
     _eventBatch := _eventBatch a; _batchTimer := _batchTimer a;
     __zenMapping := __zenMapping a |}.
Definition set_userId (v : option string) (a : Agent) : Agent :=
  {| _initialized := _initialized a; _siteId := _siteId a; _userId := v;
     _config := _config a; _eventListeners := _eventListeners a;
     _eventBatch := _eventBatch a; _batchTimer := _batchTimer a;
     __zenMapping := __zenMapping a |}.
Definition set_config (v : Config) (a : Agent) : Agent :=
  {| _initialized := _initialized a; _siteId := _siteId a; _userId := _userId a;
     _config := v; _eventListeners := _eventListeners a;
     _eventBatch := _eventBatch a; _batchTimer := _batchTimer a;
     __zenMapping := __zenMapping a |}.
Definition set_eventListeners (v : list ListenerEntry) (a : Agent) : Agent :=
  {| _initialized := _initialized a; _siteId := _siteId a; _userId := _userId a;
     _config := _config a; _eventListeners := v;
     _eventBatch := _eventBatch a; _batchTimer := _batchTimer a;
     __zenMapping := __zenMapping a |}.
Definition set_eventBatch (v : list TrackedEvent) (a : Agent) : Agent :=
  {| _initialized := _initialized a; _siteId := _siteId a; _userId := _userId a;
     _config := _config a; _eventListeners := _eventListeners a;
     _eventBatch := v; _batchTimer := _batchTimer a;
     __zenMapping := __zenMapping a |}.
Definition set_batchTimer (v : option Z) (a : Agent) : Agent :=
  {| _initialized := _initialized a; _siteId := _siteId a; _userId := _userId a;
     _config := _config a; _eventListeners := _eventListeners a;
     _eventBatch := _eventBatch a; _batchTimer := v;
     __zenMapping := __zenMapping a |}.
Definition set_zenMapping (v : ZenMapping) (a : Agent) : Agent :=
  {| _initialized := _initialized a; _siteId := _siteId a; _userId := _userId a;
     _config := _config a; _eventListeners := _eventListeners a;
     _eventBatch := _eventBatch a; _batchTimer := _batchTimer a;
     __zenMapping := v |}.

Definition set_localStorage (v : Storage) (h : Host) : Host :=
  {| localStorage := v; crypto := crypto h; fetch := fetch h; console := console h;
     listeners := listeners h; intervals := intervals h;
     nextTimerId := nextTimerId h; nextClosure := nextClosure h;
     fetched := fetched h; pending := pending h; page := page h |}.
Definition set_console (v : list ConsoleLine) (h : Host) : Host :=
  {| localStorage := localStorage h; crypto := crypto h; fetch := fetch h; console := v;
     listeners := listeners h; intervals := intervals h;
     nextTimerId := nextTimerId h; nextClosure := nextClosure h;
     fetched := fetched h; pending := pending h; page := page h |}.
Definition set_listeners (v : list Registration) (h : Host) : Host :=
  {| localStorage := localStorage h; crypto := crypto h; fetch := fetch h; console := console h;
     listeners := v; intervals := intervals h;
     nextTimerId := nextTimerId h; nextClosure := nextClosure h;
     fetched := fetched h; pending := pending h; page := page h |}.
Definition set_timers (v : list (Z * JsValue)) (next : Z) (h : Host) : Host :=
  {| localStorage := localStorage h; crypto := crypto h; fetch := fetch h; console := console h;
     listeners := listeners h; intervals := v;
     nextTimerId := next; nextClosure := nextClosure h;
     fetched := fetched h; pending := pending h; page := page h |}.
Definition set_nextClosure (v : nat) (h : Host) : Host :=
  {| localStorage := localStorage h; crypto := crypto h; fetch := fetch h; console := console h;
     listeners := listeners h; intervals := intervals h;
     nextTimerId := nextTimerId h; nextClosure := v;
     fetched := fetched h; pending := pending h; page := page h |}.
Definition set_requests (all open : list Request) (h : Host) : Host :=
  {| localStorage := localStorage h; crypto := crypto h; fetch := fetch h; console := console h;
     listeners := listeners h; intervals := intervals h;
     nextTimerId := nextTimerId h; nextClosure := nextClosure h;
     fetched := all; pending := open; page := page h |}.

(** ** Computations over the world that may throw *)

Definition M (A : Type) : Type := World → Completion A * World.

#[global] Instance M_ret : MRet M := λ A a w, (Normal a, w).
#[global] Instance M_bind : MBind M := λ A B f m w,
  match m w with
  | (Normal a, w') => f a w'
  | (Throw e, w') => (Throw e, w')
  end.

Definition throw {A} (e : JsError) : M A := λ w, (Throw e, w).

(** [try { body } catch (err) { handler }]. *)
Definition tryCatch {A} (body : M A) (handler : JsError → M A) : M A := λ w,
  match body w with
  | (Normal a, w') => (Normal a, w')
  | (Throw e, w') => handler e w'
  end.

Definition modify (f : World → World) : M unit := λ w, (Normal tt, f w).
Definition gets {A} (f : World → A) : M A := λ w, (Normal (f w), w).

Definition consoleWrite (line : ConsoleLine) : M unit :=
  modify (updHost (λ h, set_console (console h ++ [line]) h)).

(** ** Host calls *)

Definition localStorage_getItem (key : string) : M (option string) := λ w,
  match localStorage (host w) with
  | StorageInaccessible => (Throw ReferenceError, w)
  | StorageArea items _ => (Normal (items !! key), w)
  end.

Definition localStorage_setItem (key value : string) : M unit := λ w,
  match localStorage (host w) with
  | StorageInaccessible => (Throw ReferenceError, w)
  | StorageArea items false => (Throw DOMException, w)
  | StorageArea items true =>
      (Normal tt, updHost (set_localStorage (StorageArea (<[key := value]> items) true)) w)
  end.

(** [new Uint8Array(16)] after [crypto.getRandomValues(array)]. *)
Definition filledArray (fill : nat → Z) : list Z :=
  map (λ i, fill i mod 256) (seq 0 16).

(** [b.toString(16).padStart(2, "0")]. *)
Definition padStart2 (s : string) : string :=
  match s with
  | String c EmptyString => String "0"%char s
  | EmptyString => "00"
  | _ => s
  end.

Definition byteToHex (b : Z) : string := padStart2 (numberToString 16 b).

Definition uuidFromHex (hex : string) : string :=
  substr 0 8 hex +:+ "-" +:+ substr 8 4 hex +:+ "-" +:+ substr 12 4 hex
    +:+ "-" +:+ substr 16 4 hex +:+ "-" +:+ substr 20 12 hex.

(** ** getOrCreateUserId (log.js 111-134) *)

Definition getOrCreateUserId : M string :=
  existingId ← tryCatch
    (localStorage_getItem "USERQUERY_uid")
    (λ _, consoleWrite (Warn "[USERQUERY] localStorage not available. Using in-memory ID.");;
          mret None);
  if negb (truthyOpt existingId) then
    c ← gets (λ w, crypto (host w));
    existingId ←
      match c with
      | CryptoUndeclared => throw ReferenceError          (* reading [crypto] *)
      | CryptoPresent {| randomUUID := Some uuid |} => mret uuid
      | CryptoPresent {| randomUUID := None; getRandomValues := Some fill |} =>
          let array := filledArray fill in
          let hex := join "" (map byteToHex array) in
          mret (uuidFromHex hex)
      | CryptoPresent {| randomUUID := None; getRandomValues := None |} =>
          throw TypeError                                  (* calling undefined *)
      | CryptoNullish => throw TypeError                   (* property of undefined *)
      end;
    tryCatch
      (localStorage_setItem "USERQUERY_uid" existingId)
      (λ _, consoleWrite (Warn "[USERQUERY] Unable to persist userId to localStorage."));;
    mret existingId
  else mret (default "" existingId).

(** ** trackInternal (log.js 139-153) *)

(** The properties written before [...data] in the object literal. *)
Definition baseContext (eventName : string) (w : World) : TrackedEvent :=
  let p := page (host w) in
  list_to_map
    [ ("eventName", VStr eventName);
      ("timestamp", VStr (now p));
      ("siteId", _siteId (agent w));
      ("userId", ofOptString (_userId (agent w)));
      ("url", VStr (href p));
      ("userAgent", VStr (userAgent p));
      ("screenSize", VStr (toStr (VNum (screenWidth p)) +:+ "x" +:+ toStr (VNum (screenHeight p))));
      ("language", VStr (language p));
      ("referrer", VStr (referrer p)) ].

(** [{ ...obj, ...data }]: the spread comes last, so every key of [data] is
    written over what the literal holds by then. *)
Definition spread (data obj : TrackedEvent) : TrackedEvent := data ∪ obj.

Definition enrich (eventName : string) (data : TrackedEvent) (w : World) : TrackedEvent :=
  spread data (baseContext eventName w).

Definition trackInternal (eventName : string) (data : TrackedEvent) : M unit := λ w,
  let payload := enrich eventName data w in
  (Normal tt, updAgent (λ a, set_eventBatch (_eventBatch a ++ [payload]) a) w).

(** ** flushEventBatch (log.js 158-184) *)

(** Whether [JSON.stringify] accepts an event, and the payload: it throws a
    TypeError when it meets a value it cannot serialise. *)
Definition serialisableEvent (ev : TrackedEvent) : bool :=
  forallb (λ kv, serialisable kv.2) (map_to_list ev).

Definition stringifies (p : EventsPayload) : bool :=
  serialisable (payloadSiteId p) && forallb serialisableEvent (events p).

(** The synchronous part: build the payload and call [fetch].  The call
    expression reads [fetch] first (a ReferenceError when it is not
    declared), then evaluates the arguments, [JSON.stringify(eventsPayload)]
    among them (a TypeError when the payload cannot be serialised), then
    calls (a TypeError when [fetch] is not a function). *)
Definition flushEventBatch : M unit := λ w,
  if (length (_eventBatch (agent w)) =? 0)%nat then (Normal tt, w)
  else
    let eventsPayload :=
      {| userId := _userId (agent w);
         payloadSiteId := _siteId (agent w);
         events := _eventBatch (agent w) |} in
    match fetch (host w) with
    | FetchUndeclared => (Throw ReferenceError, w)
    | callee =>
        if negb (stringifies eventsPayload) then (Throw TypeError, w)
        else
          match callee with
          | FetchFunction =>
              let request := {| url := ENDPOINT; body := eventsPayload |} in
              (Normal tt,
               updHost (λ h, set_requests (fetched h ++ [request]) (pending h ++ [request]) h) w)
          | _ => (Throw TypeError, w)
          end
    end.

(** The [.then] callback (a response arrived) and the [.catch] callback (the
    request failed). *)
Definition onResponse (ok : bool) (status : Z) : M unit :=
  (if negb ok
   then consoleWrite (WarnWith "[USERQUERY] Failed to post events. Response status:" (VNum status))
   else mret tt);;
  modify (updAgent (set_eventBatch [])).

Definition onError : M unit :=
  consoleWrite (Warn "[USERQUERY] Error posting events:");;
  modify (updAgent (set_eventBatch [])).

(** The host settles the [i]-th pending request and runs its callback. *)
Definition settle (i : nat) (outcome : FetchOutcome) : M unit := λ w,
  match pending (host w) !! i with
  | None => (Normal tt, w)
  | Some _ =>
      let w := updHost (λ h, set_requests (fetched h) (delete i (pending h)) h) w in
      match outcome with
      | ResponseOk => onResponse true 200 w
      | ResponseNotOk status => onResponse false status w
      | NetworkError => onError w
      end
  end.

(** ** attachCoreEventListeners (log.js 189-283) *)

(** [target.addEventListener(event, handler, { capture })]: a listener equal
    in type, callback and capture flag to one already held is not added. *)
Definition addEventListener (r : Registration) : M unit :=
  modify (updHost (λ h,
    if bool_decide (r ∈ listeners h) then h
    else set_listeners (listeners h ++ [r]) h)).

(** [target.removeEventListener(event, handler, options || false)]. *)
Definition removeEventListener (r : Registration) : M unit :=
  modify (updHost (λ h,
    set_listeners (filter (λ r', r' ≠ r) (listeners h)) h)).

Definition registrationOf (l : ListenerEntry) : Registration :=
  {| regTarget := target l; regEvent := event l; regHandler := handler l;
     regCapture := default false (options l) |}.

(** One [addEventListener] followed by one [_eventListeners.push]. *)
Definition attach (l : ListenerEntry) : M unit :=
  addEventListener (registrationOf l);;
  modify (updAgent (λ a, set_eventListeners (_eventListeners a ++ [l]) a)).

Definition coreListeners (c : nat) : list ListenerEntry :=
  [ {| target := Document; event := "click";
       handler := {| kind := ClickHandler; closure := c |}; options := None |};
    {| target := Window; event := "load";
       handler := {| kind := PageLoadHandler; closure := c |}; options := None |};
    {| target := Window; event := "beforeunload";
       handler := {| kind := UnloadHandler; closure := c |}; options := Some true |};
    {| target := Window; event := "scroll";
       handler := {| kind := ScrollHandler; closure := c |}; options := None |};
    {| target := Window; event := "resize";
       handler := {| kind := ResizeHandler; closure := c |}; options := None |};
    {| target := Document; event := "visibilitychange";
       handler := {| kind := VisibilityHandler; closure := c |}; options := None |};
    {| target := Window; event := "error";
       handler := {| kind := ErrorHandler; closure := c |}; options := None |} ].

Fixpoint forEach {A} (f : A → M unit) (l : list A) : M unit :=
  match l with
  | [] => mret tt
  | x :: rest => f x;; forEach f rest
  end.

Definition attachCoreEventListeners : M unit :=
  c ← gets (λ w, nextClosure (host w));
  modify (updHost (set_nextClosure (S c)));;
  forEach attach (coreListeners c).

(** The click handler (log.js 191-202), for a click whose target is [el]:
    it returns the target as the handler leaves it.  A target that
    [labelElement] has accepted is an element. *)
Definition clickHandler (el : Node) (button clientX clientY : Z) : M Node := λ w,
  match labelElement el (__zenMapping (agent w)) with
  | (Throw e, _, m') => (Throw e, updAgent (set_zenMapping m') w)
  | (Normal _, OtherNode, m') => (Throw TypeError, updAgent (set_zenMapping m') w)
  | (Normal _, ElementNode el', m') =>
      let w := updAgent (set_zenMapping m') w in
      let data : TrackedEvent :=
        list_to_map
          [ ("tagName", match tagName el' with Some t => VStr t | None => VUndefined end);
            ("dataZenId", ofOptString (getAttribute el' "data-zenid"));
            ("id", if truthy (elementId el') then VStr (elementId el') else VNull);
            ("classes", if truthyValue (className el') then className el' else VNull);
            ("button", VNum button);
            ("clientX", VNum clientX);
            ("clientY", VNum clientY) ] in
      match trackInternal "click" data w with
      | (Normal _, w') => (Normal (ElementNode el'), w')
      | (Throw e, w') => (Throw e, w')
      end
  end.

(** The unload handler (log.js 226-229). *)
Definition unloadHandler : M unit :=
  trackInternal "pageUnload" ∅;;
  flushEventBatch.

(** ** Timers *)

Definition setInterval (period : JsValue) : M Z := λ w,
  let t := nextTimerId (host w) in
  (Normal t, updHost (λ h, set_timers (intervals h ++ [(t, period)]) (t + 1) h) w).

Definition clearInterval (t : Z) : M unit :=
  modify (updHost (λ h,
    set_timers (filter (λ p, p.1 ≠ t) (intervals h)) (nextTimerId h) h)).

(** ** USERQUERY.init (log.js 292-314) *)

Definition doubleQuote : string := String (ascii_of_nat 34) EmptyString.

Definition init (config : Config) : M unit :=
  initialized ← gets (λ w, _initialized (agent w));
  if (initialized : bool) then
    consoleWrite (Warn "[USERQUERY] Already initialized.")
  else
    modify (updAgent (set_initialized true));;
    modify (updAgent (set_config (objectAssign (objectAssign emptyConfig DEFAULT_CONFIG) config)));;
    modify (updAgent (λ a, set_siteId (property (_config a) "siteId") a));;
    uid ← getOrCreateUserId;
    modify (updAgent (set_userId (Some uid)));;
    site ← gets (λ w, _siteId (agent w));
    consoleWrite (Log ("[USERQUERY] Initializing with siteId=" +:+ doubleQuote
                       +:+ toStr site
                       +:+ doubleQuote +:+ ", userId=" +:+ doubleQuote +:+ uid +:+ doubleQuote));;
    attachCoreEventListeners;;
    p ← gets (λ w, page (host w));
    (if bool_decide (readyState p = "complete")
     then trackInternal "pageLoad" {[ "title" := VStr (title p) ]}
     else mret tt);;
    period ← gets (λ w, property (_config (agent w)) "batchInterval");
    t ← setInterval period;
    modify (updAgent (set_batchTimer (Some t))).

(** ** USERQUERY.stop (log.js 319-338) *)

Definition stop : M unit :=
  initialized ← gets (λ w, _initialized (agent w));
  if negb initialized then
    consoleWrite (Warn "[USERQUERY] Not initialized or already stopped.")
  else
    modify (updAgent (set_initialized false));;
    consoleWrite (Log "[USERQUERY] Stopping. Removing event listeners...");;
    ls ← gets (λ w, _eventListeners (agent w));
    forEach (λ l, removeEventListener (registrationOf l)) ls;;
    modify (updAgent (set_eventListeners []));;
    flushEventBatch;;
    timer ← gets (λ w, _batchTimer (agent w));
    match timer with
    | Some t =>
        if negb (t =? 0)
        then clearInterval t;; modify (updAgent (set_batchTimer None))
        else mret tt
    | None => mret tt
    end.

(** ** USERQUERY.trackCustom (log.js 343-349) *)

Definition trackCustom (eventName : string) (data : TrackedEvent) : M unit :=
  initialized ← gets (λ w, _initialized (agent w));
  if negb initialized then
    consoleWrite (Warn "[USERQUERY] Not initialized. Cannot track custom events.")
  else
    trackInternal eventName data.

(** ** Runs *)

(** What can happen to a loaded agent: the page calls the public interface, a
    running flush timer fires, or the host settles a pending request. *)
Inductive Action :=
| CallInit (config : Config)
| CallStop
| CallTrackCustom (eventName : string) (data : TrackedEvent)
| TimerFires (t : Z)
| Settles (i : nat) (outcome : FetchOutcome).

(** The host runs the callback of timer [t], which is [flushEventBatch], if
    that timer is still running. *)
Definition timerFires (t : Z) : M unit := λ w,
  if bool_decide (t ∈ (intervals (host w)).*1) then flushEventBatch w
  else (Normal tt, w).

Definition perform (a : Action) : M unit :=
  match a with
  | CallInit config => init config
  | CallStop => stop
  | CallTrackCustom eventName data => trackCustom eventName data
  | TimerFires t => timerFires t
  | Settles i outcome => settle i outcome
  end.

(** A run carries on after an action that throws: the exception reaches the
    page, the agent's state stays as the action left it. *)
Fixpoint run (actions : list Action) (w : World) : World :=
  match actions with
  | [] => w
  | a :: rest => run rest (perform a w).2
  end.

(** A freshly loaded script in a given host. *)
Definition loaded (h : Host) : World := {| agent := initialAgent; host := h |}.

(** ** Sample inputs *)

Definition goButton : Element :=
  {| tagName := Some "BUTTON"; isSVG := false;
     attributes := {[ "id" := "go" ]};
     textContent := "Go" |}.

(** The same button elsewhere on the page, with a style and a label. *)
Definition styledGoButton : Element :=
  {| tagName := Some "BUTTON"; isSVG := false;
     attributes := <[ "style" := "color:red" ]> (<[ "data-zenid" := "zen-abc" ]> {[ "id" := "go" ]});
     textContent := "Go" |}.

(** An object made by hand that has the attribute methods and text but no
    tag name. *)
Definition taglessNode : Element :=
  {| tagName := None; isSVG := false; attributes := ∅; textContent := "note" |}.

(** An element that already carries a label. *)
Definition labelledButton : Element :=
  {| tagName := Some "BUTTON"; isSVG := false;
     attributes := {[ "data-zenid" := "zen-abc" ]};
     textContent := "Go" |}.

(** An element whose tag is [constructor] and which has no attribute and no
    text, as the markup [<constructor></constructor>] creates it. *)
Definition constructorElement : Element :=
  {| tagName := Some "CONSTRUCTOR"; isSVG := false; attributes := ∅; textContent := "" |}.

(** Two circles of an inline SVG drawing, as the markup
    [<circle r="4"/>] and [<circle class="highlight" r="4"/>] creates them. *)
Definition svgCircle : Element :=
  {| tagName := Some "circle"; isSVG := true;
     attributes := {[ "r" := "4" ]}; textContent := "" |}.

Definition highlightedSvgCircle : Element :=
  {| tagName := Some "circle"; isSVG := true;
     attributes := <[ "class" := "highlight" ]> {[ "r" := "4" ]}; textContent := "" |}.

(** A button with a class. *)
Definition primaryButton : Element :=
  {| tagName := Some "BUTTON"; isSVG := false;
     attributes := <[ "class" := "primary" ]> {[ "id" := "go" ]}; textContent := "Go" |}.

(** ** Successive requests *)

(** [k] calls of [generateStableZenId] for the same element-like input, one
    after the other: the results in call order, and the registry afterwards. *)
Fixpoint requestTimes (k : nat) (el : Element) (m : ZenMapping)
  : list (Completion (option string)) * ZenMapping :=
  match k with
  | O => ([], m)
  | S k' =>
      let '(r, m') := generateStableZenId (Some el) m in
      let '(rs, m'') := requestTimes k' el m' in
      (r :: rs, m'')
  end.

(** The identifier the numbering scheme gives to the [n]-th request. *)
Definition numberedId (signature : string) (n : Z) : string :=
  if n =? 1 then "zen-" +:+ fnv32a signature
  else ("zen-" +:+ fnv32a signature) +:+ "-" +:+ numberToString 10 n.

(** ** Sample hosts *)

Definition samplePage : Page :=
  {| now := "2024-05-01T10:00:00.000Z"; href := "https://shop.example/cart";
     userAgent := "Mozilla/5.0"; screenWidth := 1920; screenHeight := 1080;
     language := "en-US"; referrer := "https://shop.example/";
     readyState := "loading"; title := "Cart" |}.

Definition hostWith (s : Storage) (c : CryptoGlobal) : Host :=
  {| localStorage := s; crypto := c; fetch := FetchFunction; console := []; listeners := [];
     intervals := []; nextTimerId := 1; nextClosure := 0;
     fetched := []; pending := []; page := samplePage |}.

(** A current browser. *)
Definition modernHost : Host :=
  hostWith (StorageArea ∅ true)
    (CryptoPresent {| randomUUID := Some "3b241101-e2bb-4255-8caf-4136c566a962";
                      getRandomValues := Some (λ i, Z.of_nat i) |}).

(** A browser with [crypto.getRandomValues] but without [crypto.randomUUID],
    and without access to storage. *)
Definition olderHost : Host :=
  hostWith StorageInaccessible
    (CryptoPresent {| randomUUID := None;
                      getRandomValues := Some (λ i, 17 * Z.of_nat i + 3) |}).

(** A host in which [crypto] is undefined and storage holds no identifier. *)
Definition hostWithoutCrypto : Host := hostWith (StorageArea ∅ true) CryptoNullish.

(** The 8-4-4-4-12 shape: 36 characters, hyphens at 8, 13, 18 and 23,
    lower-case hexadecimal digits elsewhere. *)
Definition isHexDigit (c : ascii) : bool :=
  let n := charCode c in
  ((48 <=? n) && (n <=? 57)) || ((97 <=? n) && (n <=? 102)).

Fixpoint shapedFrom (i : nat) (s : string) : bool :=
  match s with
  | EmptyString => (i =? 36)%nat
  | String c r =>
      (if (i =? 8)%nat || (i =? 13)%nat || (i =? 18)%nat || (i =? 23)%nat
       then bool_decide (c = "-"%char) else isHexDigit c)
      && shapedFrom (S i) r
  end.

Definition uuidShaped (s : string) : bool := shapedFrom 0 s.

(** Whether storage currently hands out a usable identifier. *)
Definition storedUserId (w : World) : option string :=
  match localStorage (host w) with
  | StorageInaccessible => None
  | StorageArea items _ =>
      match items !! "USERQUERY_uid" with
      | Some v => if truthy v then Some v else None
      | None => None
      end
  end.

Definition twoHexDigits (s : string) : bool :=
  match s with
  | String x (String y EmptyString) => isHexDigit x && isHexDigit y
  | _ => false
  end.

(** The host offers a way to make an identifier: [crypto] is an object with
    at least one of the two methods. *)
Definition cryptoUsable (w : World) : Prop :=
  ∃ c, crypto (host w) = CryptoPresent c
       ∧ (is_Some (randomUUID c) ∨ is_Some (getRandomValues c)).

(** ** Sample runs *)

Definition sampleConfig : Config := {[ "siteId" := VStr "abc" ]}.


(** The agent right after a successful [init]. *)
Definition startedWorld : World := run [CallInit sampleConfig] (loaded modernHost).

(** The agent after [init] and one recorded custom event. *)
Definition recordedWorld : World :=
  run [CallInit sampleConfig; CallTrackCustom "first" ∅] (loaded modernHost).

(** The agent after [init] and one custom event whose data holds a BigInt,
    as [trackCustom("big", { n: 10n })] records it. *)
Definition bigIntWorld : World :=
  run [CallInit sampleConfig; CallTrackCustom "big" {[ "n" := VBigInt 10 ]}]
      (loaded modernHost).

(** Caller data that also carries an [eventName] key. *)
Definition overridingData : TrackedEvent :=
  <[ "eventName" := VStr "spoofed" ]> {[ "plan" := VStr "pro" ]}.

(** The world after a warning has been written to the console: nothing but
    the console differs. *)
Definition warned (msg : string) (w : World) : World :=
  updHost (λ h, set_console (console h ++ [Warn msg]) h) w.

(** The request [flushEventBatch] issues in world [w]. *)
Definition requestOf (w : World) : Request :=
  {| url := ENDPOINT;
     body := {| userId := _userId (agent w);
                payloadSiteId := _siteId (agent w);
                events := _eventBatch (agent w) |} |}.

(** Every event that some call of [fetch] has carried so far. *)
Definition deliveredEvents (w : World) : list TrackedEvent :=
  concat (map (λ r, events (body r)) (fetched (host w))).

(** A custom event is recorded while a flush is in flight. *)
Definition raceRun : list Action :=
  [ CallInit sampleConfig;
    CallTrackCustom "first" ∅;
    TimerFires 1;
    CallTrackCustom "second" ∅;
    Settles 0 ResponseOk;
    TimerFires 1;
    CallStop ].

Definition eventNames (es : list TrackedEvent) : list (option JsValue) :=
  map (λ e : TrackedEvent, e !! "eventName") es.

(** ** Reasoning about computations *)

(** [wp m Q w]: running [m] in world [w] ends in a completion and a world
    that satisfy [Q]. *)
Definition wp {A} (m : M A) (Q : Completion A → World → Prop) (w : World) : Prop :=
  Q (m w).1 (m w).2.

(** * Further definitions *)

(** ** Sequences of requests *)

(** Requests for a list of inputs, one after the other; a request that
    throws leaves the registry as it was and the next one is made all the
    same. *)
Fixpoint requestAll (inputs : list (option Element)) (m : ZenMapping)
  : list (Completion (option string)) * ZenMapping :=
  match inputs with
  | [] => ([], m)
  | x :: rest =>
      let '(r, m') := generateStableZenId x m in
      let '(rs, m'') := requestAll rest m' in
      (r :: rs, m'')
  end.

(** How many of the inputs have the signature [s]. *)
Definition occurrences (s : string) (inputs : list (option Element)) : nat :=
  length (filter (λ x, generateElementSignature x = Some s) inputs).

(** Every stored entry carries the hash of its key as identifier and a count
    of at least one. *)
Definition entriesWellFormed (m : ZenMapping) : Prop :=
  ∀ s e, ownEntries m !! s = Some e → id e = "zen-" +:+ fnv32a s ∧ 1 <= count e.

(** The entry of an ordinary signature counts the requests made for it. *)
Definition countsRequests (inputs : list (option Element)) (m : ZenMapping) : Prop :=
  ∀ s, s ∉ objectPrototypeKeys → s ≠ "count" →
       ownEntries m !! s
       = if decide (occurrences s inputs = 0%nat) then None
         else Some {| id := "zen-" +:+ fnv32a s;
                      count := Z.of_nat (occurrences s inputs) |}.


(** ** Making an identifier *)

(** The identifier the host would make: [randomUUID] if it is there, the
    bytes of [getRandomValues] otherwise. *)
Definition freshUserId (c : CryptoObject) : option string :=
  match randomUUID c, getRandomValues c with
  | Some uuid, _ => Some uuid
  | None, Some fill => Some (uuidFromHex (join "" (map byteToHex (filledArray fill))))
  | None, None => None
  end.


(** ** What [stop] and [init] leave behind *)

(** The error with which a flush in world [w] ends, if it ends with one:
    there is something to send, and [fetch] is missing or the payload cannot
    be serialised. *)
Definition flushError (w : World) : option JsError :=
  match _eventBatch (agent w) with
  | [] => None
  | _ =>
      match fetch (host w) with
      | FetchUndeclared => Some ReferenceError
      | FetchNotCallable => Some TypeError
      | FetchFunction =>
          if stringifies (body (requestOf w)) then None else Some TypeError
      end
  end.

Definition completionOf (error : option JsError) : Completion unit :=
  match error with
  | None => Normal tt
  | Some e => Throw e
  end.


(** The listeners the DOM still holds after those recorded in
    [_eventListeners] are removed. *)
Definition listenersAfterStop (w : World) : list Registration :=
  filter (λ r, r ∉ map registrationOf (_eventListeners (agent w))) (listeners (host w)).

(** The timers still running after [stop]: all of them when the flush has
    thrown, since [stop] is then left before it clears [_batchTimer]. *)
Definition intervalsAfterStop (w : World) : list (Z * JsValue) :=
  match flushError w, _batchTimer (agent w) with
  | None, Some t => if t =? 0 then intervals (host w)
                    else filter (λ p, p.1 ≠ t) (intervals (host w))
  | _, _ => intervals (host w)
  end.

(** [_batchTimer] after [stop]. *)
Definition batchTimerAfterStop (w : World) : option Z :=
  match flushError w, _batchTimer (agent w) with
  | None, Some t => if t =? 0 then Some t else None
  | None, None => None
  | Some _, timer => timer
  end.

(** The requests a flush adds in world [w]. *)
Definition flushRequests (w : World) : list Request :=
  match _eventBatch (agent w), flushError w with
  | _ :: _, None => [requestOf w]
  | _, _ => []
  end.

(** A world in which every flush can send: [fetch] is a function, and the
    site identifier and every event of the batch can be serialised. *)
Definition sendable (w : World) : Prop :=
  fetch (host w) = FetchFunction
  ∧ serialisable (_siteId (agent w)) = true
  ∧ Forall (λ ev, serialisableEvent ev = true) (_eventBatch (agent w)).

(** [Object.assign({}, DEFAULT_CONFIG, config)]. *)
Definition mergedConfig (config : Config) : Config :=
  objectAssign (objectAssign emptyConfig DEFAULT_CONFIG) config.

(** The page-load event [init] records when the document is already
    complete; [w'] is the world whose identity fields the event carries. *)
Definition pageLoadEvents (w w' : World) : list TrackedEvent :=
  if bool_decide (readyState (page (host w)) = "complete")
  then [enrich "pageLoad" {[ "title" := VStr (title (page (host w))) ]} w']
  else [].


(** ** Agreement between the agent and the host *)

(** The DOM holds exactly the listeners recorded in [_eventListeners], the
    only running timer is [_batchTimer], and an agent that is not initialised
    has neither. *)
Definition consistent (w : World) : Prop :=
  0 < nextTimerId (host w)
  ∧ listeners (host w) = map registrationOf (_eventListeners (agent w))
  ∧ (intervals (host w)).*1
    = match _batchTimer (agent w) with Some t => [t] | None => [] end
  ∧ (∀ t, _batchTimer (agent w) = Some t → 0 < t)
  ∧ (_initialized (agent w) = false →
     _eventListeners (agent w) = [] ∧ _batchTimer (agent w) = None).

(** A host in which the page has registered no listener and started no
    timer, and whose next timer identifier is positive. *)
Definition pristine (h : Host) : Prop :=
  listeners h = [] ∧ intervals h = [] ∧ 0 < nextTimerId h.

(** An action whose arguments [JSON.stringify] accepts: the site identifier
    that [init] takes from the configuration, and the data of a custom
    event. *)
Definition serialisableAction (a : Action) : Prop :=
  match a with
  | CallInit config => serialisable (property (mergedConfig config) "siteId") = true
  | CallTrackCustom _ data => serialisableEvent data = true
  | _ => True
  end.

(** ** The shape of a hash *)

Definition isBase36Digit (c : ascii) : bool :=
  let n := charCode c in
  ((48 <=? n) && (n <=? 57)) || ((97 <=? n) && (n <=? 122)).

Fixpoint allChars (p : ascii → bool) (s : string) : bool :=
  match s with
  | EmptyString => true
  | String c r => p c && allChars p r
  end.

(** ** The visibility handler (log.js 259-269) *)

(** [previousVisibilityState] is the variable the closure keeps between
    calls: the handler takes its value and returns the new one;
    [visibilityState] is what [document.visibilityState] reads when the
    handler runs. *)
Definition visibilityHandler (visibilityState previousVisibilityState : string)
  : M string :=
  trackInternal "visibilityChange"
    (<[ "to" := VStr visibilityState ]> {[ "from" := VStr previousVisibilityState ]});;
  mret visibilityState.

(** The handler run once for each of a list of successive visibility states. *)
Fixpoint visibilityChanges (states : list string) (previous : string) : M string :=
  match states with
  | [] => mret previous
  | s :: rest => p ← visibilityHandler s previous; visibilityChanges rest p
  end.

(** The [from] and [to] of the events recorded for a list of states. *)
Fixpoint transitions (previous : string) (states : list string) : list (string * string) :=
  match states with
  | [] => []
  | s :: rest => (previous, s) :: transitions s rest
  end.

(** ** Signatures without a bar *)





(** * Properties *)

(** ** Number rendering *)

Lemma charCode_ascii_of_N n : 0 <= n < 256 → charCode (ascii_of_N (Z.to_N n)) = n.
Proof.
  intros Hn. unfold charCode. rewrite N_ascii_embedding by lia. lia.
Qed.

Lemma digitValue_digitChar d : 0 <= d < 36 → digitValue (digitChar d) = d.
Proof.
  intros Hd. unfold digitValue, digitChar.
  destruct (d <? 10) eqn:E.
  - apply Z.ltb_lt in E. rewrite charCode_ascii_of_N by lia.
    replace (48 + d <? 58) with true by (symmetry; apply Z.ltb_lt; lia). lia.
  - apply Z.ltb_ge in E. rewrite charCode_ascii_of_N by lia.
    replace (87 + d <? 58) with false by (symmetry; apply Z.ltb_ge; lia). lia.
Qed.

Lemma parseDigits_acc radix s : ∀ acc,
  parseDigits radix acc s
  = acc * radix ^ Z.of_nat (String.length s) + parseDigits radix 0 s.
Proof.
  induction s as [| c r IH]; intros acc; cbn [parseDigits String.length].
  - cbn. lia.
  - rewrite IH, (IH (0 * radix + digitValue c)).
    rewrite Nat2Z.inj_succ, Z.pow_succ_r by lia. ring.
Qed.

(** The fuel of [digitsFrom] suffices: the digits printed have the value
    of the number. *)
Lemma digitsFrom_value radix : 2 <= radix <= 36 →
  ∀ fuel n acc, 0 <= n < 2 ^ Z.of_nat fuel →
  parseDigits radix 0 (digitsFrom fuel radix n acc)
  = n * radix ^ Z.of_nat (String.length acc) + parseDigits radix 0 acc.
Proof.
  intros Hr. induction fuel as [| fuel IH]; intros n acc Hn.
  - cbn in Hn. assert (n = 0) as -> by lia. cbn. lia.
  - cbn [digitsFrom].
    pose proof (Z.mod_pos_bound n radix ltac:(lia)) as Hm.
    pose proof (Z.div_mod n radix ltac:(lia)) as Hdm.
    assert (Hd : digitValue (digitChar (n mod radix)) = n mod radix)
      by (apply digitValue_digitChar; lia).
    destruct (n / radix =? 0) eqn:E.
    + apply Z.eqb_eq in E. cbn [parseDigits]. rewrite parseDigits_acc, Hd.
      rewrite E in Hdm. nia.
    + apply Z.eqb_neq in E. rewrite IH.
      * cbn [String.length parseDigits]. rewrite (parseDigits_acc radix acc), Hd.
        rewrite Nat2Z.inj_succ, Z.pow_succ_r by lia.
        rewrite Hdm at 3. ring.
      * rewrite Nat2Z.inj_succ, Z.pow_succ_r in Hn by lia.
        split; [apply Z.div_pos; lia|].
        apply Z.div_lt_upper_bound; [lia|]. nia.
Qed.

Lemma numberToString_value radix n : 2 <= radix <= 36 → 0 <= n →
  parseDigits radix 0 (numberToString radix n) = n.
Proof.
  intros Hr Hn. unfold numberToString. rewrite digitsFrom_value; [cbn; lia | exact Hr |].
  split; [exact Hn|].
  rewrite Nat2Z.inj_succ.
  destruct (Z.eq_dec n 0) as [-> | Hne]; [cbn; lia|].
  rewrite Z2Nat.id by apply Z.log2_nonneg.
  apply Z.log2_spec. lia.
Qed.

(** ** The hash *)

Lemma toInt32_shape z : toInt32 z = z - 2 ^ 32 * ((z + 2 ^ 31) / 2 ^ 32).
Proof. unfold toInt32. rewrite Z.mod_eq by lia. lia. Qed.

Lemma toInt32_range z : - 2 ^ 31 <= toInt32 z < 2 ^ 31.
Proof.
  unfold toInt32. pose proof (Z.mod_pos_bound (z + 2 ^ 31) (2 ^ 32)). lia.
Qed.

Lemma toUint32_range z : 0 <= toUint32 z < 2 ^ 32.
Proof. unfold toUint32. apply Z.mod_pos_bound. lia. Qed.

Lemma toUint32_toInt32 z : toUint32 (toInt32 z) = toUint32 z.
Proof.
  unfold toUint32. rewrite toInt32_shape.
  replace (z - 2 ^ 32 * ((z + 2 ^ 31) / 2 ^ 32))
    with (z + (- ((z + 2 ^ 31) / 2 ^ 32)) * 2 ^ 32) by lia.
  apply Z.mod_add. lia.
Qed.

(** Reduction modulo a power of two commutes with exclusive or, also on
    negative operands. *)
Lemma lxor_mod_pow2 a b n : 0 <= n ->
  Z.lxor a b mod 2 ^ n = Z.lxor (a mod 2 ^ n) (b mod 2 ^ n).
Proof.
  intros Hn. apply Z.bits_inj'. intros i Hi.
  rewrite Z.lxor_spec.
  destruct (Z.lt_ge_cases i n) as [Hlt | Hge].
  - rewrite !Z.mod_pow2_bits_low by lia. now rewrite Z.lxor_spec.
  - rewrite !Z.mod_pow2_bits_high by lia. reflexivity.
Qed.

Lemma charCode_range c : 0 <= charCode c < 256.
Proof. unfold charCode. pose proof (N_ascii_bounded c). lia. Qed.

Lemma toUint32_jsXor h c : 0 <= c < 2 ^ 32 ->
  toUint32 (jsXor h c) = Z.lxor (toUint32 h) c.
Proof.
  intros Hc. unfold jsXor. rewrite toUint32_toInt32. unfold toUint32.
  rewrite lxor_mod_pow2 by lia.
  fold (toUint32 (toInt32 h)). fold (toUint32 (toInt32 c)).
  rewrite !toUint32_toInt32. unfold toUint32.
  rewrite (Z.mod_small c) by lia. reflexivity.
Qed.

(** A left shift is a multiplication by a power of two, up to a multiple of
    2^32. *)
Lemma jsShl_shape x k : 0 <= k -> ∃ q, jsShl x k = x * 2 ^ k + q * 2 ^ 32.
Proof.
  intros Hk. unfold jsShl. rewrite Z.shiftl_mul_pow2 by lia.
  rewrite (toInt32_shape (toInt32 x * 2 ^ k)), (toInt32_shape x).
  eexists (- ((x + 2 ^ 31) / 2 ^ 32) * 2 ^ k
           - ((x - 2 ^ 32 * ((x + 2 ^ 31) / 2 ^ 32)) * 2 ^ k + 2 ^ 31) / 2 ^ 32).
  ring.
Qed.

(** One round of the loop is one round of FNV-1a. *)
Lemma fnvRound_mul h c : 0 <= c < 2 ^ 32 ->
  toUint32 (fnvRound h c) = (Z.lxor (toUint32 h) c * fnvPrime) mod 2 ^ 32.
Proof.
  intros Hc. unfold fnvRound.
  rewrite <- (toUint32_jsXor h c Hc).
  set (x := jsXor h c).
  destruct (jsShl_shape x 1) as [q1 E1]; [lia|].
  destruct (jsShl_shape x 4) as [q4 E4]; [lia|].
  destruct (jsShl_shape x 7) as [q7 E7]; [lia|].
  destruct (jsShl_shape x 8) as [q8 E8]; [lia|].
  destruct (jsShl_shape x 24) as [q24 E24]; [lia|].
  rewrite E1, E4, E7, E8, E24. unfold toUint32, fnvPrime.
  rewrite Z.mul_mod_idemp_l by lia.
  replace (x + (x * 2 ^ 1 + q1 * 2 ^ 32 + (x * 2 ^ 4 + q4 * 2 ^ 32)
                + (x * 2 ^ 7 + q7 * 2 ^ 32) + (x * 2 ^ 8 + q8 * 2 ^ 32)
                + (x * 2 ^ 24 + q24 * 2 ^ 32)))
    with (x * 16777619 + (q1 + q4 + q7 + q8 + q24) * 2 ^ 32) by ring.
  apply Z.mod_add. lia.
Qed.

(** The running value of [hash] stays far inside the range in which
    JavaScript numbers are exact integers, so reading the additions of the
    loop body as additions of [Z] loses nothing. *)
Lemma fnvRound_exact h c : - 2 ^ 53 < fnvRound h c < 2 ^ 53.
Proof.
  unfold fnvRound, jsShl.
  assert (Hx : - 2 ^ 31 <= jsXor h c < 2 ^ 31) by apply toInt32_range.
  pose proof (toInt32_range (Z.shiftl (toInt32 (jsXor h c)) 1)).
  pose proof (toInt32_range (Z.shiftl (toInt32 (jsXor h c)) 4)).
  pose proof (toInt32_range (Z.shiftl (toInt32 (jsXor h c)) 7)).
  pose proof (toInt32_range (Z.shiftl (toInt32 (jsXor h c)) 8)).
  pose proof (toInt32_range (Z.shiftl (toInt32 (jsXor h c)) 24)).
  lia.
Qed.

Lemma fnvLoop_reference str : ∀ h,
  toUint32 (fnvLoop str h) = fnv1aReference str (toUint32 h).
Proof.
  induction str as [| c rest IH]; intros h; simpl.
  - reflexivity.
  - rewrite IH. f_equal. apply fnvRound_mul.
    pose proof (charCode_range c). lia.
Qed.

(** C5. [fnv32a] depends on its argument only; it is 32-bit FNV-1a: from the
    seed 0x811c9dc5, every round xors the character code in and its
    shift-and-add step multiplies by the FNV prime 16777619 modulo 2^32; the
    result is an unsigned 32-bit value, rendered in base 36; on the test
    string foobar it gives the published FNV-1a value 0xbf9cf968. *)
Theorem fnv32a_is_fnv1a_base36 (str : string) :
  fnv32aValue str = fnv1aReference str 0x811c9dc5
  ∧ 0 <= fnv32aValue str < 2 ^ 32
  ∧ fnv32a str = numberToString 36 (fnv1aReference str 0x811c9dc5)
  ∧ (∀ h c, toUint32 (fnvRound h (charCode c))
            = (Z.lxor (toUint32 h) (charCode c) * 16777619) mod 2 ^ 32)
  ∧ fnv32aValue "" = 0x811c9dc5
  ∧ fnv32aValue "foobar" = 0xbf9cf968
  ∧ fnv32a "foobar" = "1h5yxyg".
Proof.
  assert (E : fnv32aValue str = fnv1aReference str 0x811c9dc5).
  { unfold fnv32aValue. rewrite fnvLoop_reference. reflexivity. }
  split; [exact E|].
  split; [apply toUint32_range|].
  split; [unfold fnv32a; now rewrite E|].
  split.
  { intros h c. apply fnvRound_mul. pose proof (charCode_range c). lia. }
  repeat split; vm_compute; reflexivity.
Qed.

(** ** The signature extractor *)

Lemma pushIf_app cond x parts :
  pushIf cond x parts = parts ++ (if cond then [x] else []).
Proof. destruct cond; simpl; [reflexivity | now rewrite app_nil_r]. Qed.

Lemma token_default label (o : option string) :
  (if truthy (default "" o) then [label +:+ default "" o] else []) = token label o.
Proof. destruct o as [v|]; reflexivity. Qed.

Lemma token_truthyOpt label (o : option string) :
  (if truthyOpt o then [label +:+ default "" o] else []) = token label o.
Proof. destruct o as [v|]; reflexivity. Qed.

Lemma classToken_className el :
  (if truthyValue (className el) then ["class:" +:+ toStr (className el)] else [])
  = classToken el.
Proof.
  unfold className, classToken, getAttribute.
  destruct (isSVG el); [reflexivity|]. cbn [truthyValue toStr]. apply token_default.
Qed.

Lemma generateElementSignature_tagged el tag :
  tagName el = Some tag → tag ≠ "" →
  generateElementSignature (Some el) = Some (join "|" (signatureTokens tag el)).
Proof.
  intros Htag Hne. unfold generateElementSignature. rewrite Htag.
  destruct tag as [| c r]; [congruence|]. cbn [truthy negb].
  f_equal. f_equal. unfold signatureTokens.
  rewrite !pushIf_app, classToken_className. unfold elementId, getAttribute, textToken.
  rewrite !token_default, !token_truthyOpt, <- !app_assoc. reflexivity.
Qed.

Lemma generateElementSignature_untagged el :
  tagName el = None ∨ tagName el = Some "" →
  generateElementSignature (Some el) = None.
Proof.
  intros [H | H]; unfold generateElementSignature; rewrite H; reflexivity.
Qed.

Lemma token_only_if_present label (o : option string) t :
  t ∈ token label o → ∃ v, o = Some v ∧ v ≠ "" ∧ t = label +:+ v.
Proof.
  destruct o as [v|]; simpl; [| intros H; inversion H].
  destruct v as [| c r]; simpl; [intros H; inversion H|].
  intros H. apply list_elem_of_singleton in H. eauto.
Qed.

(** The tokens of the signature.  No tag name (or no input at all): the
    result is null.  Otherwise the result is the tokens joined by a bar, in
    the fixed order tag name in lower case, id, class, name, type, text; the
    token of an attribute read through [token] is there only if the attribute
    is present (and then carries its value, never an empty one), the text
    token exactly when the trimmed text is not empty and shorter than 50
    characters; on an element that is not an SVG element the class token is
    that of the attribute [class]; inputs with the same static attributes
    get the same signature. *)
Lemma generateElementSignature_tokens (el : Element) :
  generateElementSignature None = None
  ∧ (tagName el = None ∨ tagName el = Some "" →
     generateElementSignature (Some el) = None)
  ∧ (∀ tag, tagName el = Some tag → tag ≠ "" →
     generateElementSignature (Some el) = Some (join "|" (signatureTokens tag el)))
  ∧ (∀ label key, attributes el !! key = None → token label (attributes el !! key) = [])
  ∧ (∀ label key t, t ∈ token label (attributes el !! key) →
     ∃ v, attributes el !! key = Some v ∧ v ≠ "" ∧ t = label +:+ v)
  ∧ (isSVG el = false → classToken el = token "class:" (attributes el !! "class"))
  ∧ (∀ text, textToken text
             = if bool_decide (text ≠ "" ∧ (String.length text < 50)%nat)
               then ["text:" +:+ text] else [])
  ∧ (∀ el', sameStaticAttributes el el' →
     generateElementSignature (Some el) = generateElementSignature (Some el')).
Proof.
  split; [reflexivity|].
  split; [apply generateElementSignature_untagged|].
  split; [apply generateElementSignature_tagged|].
  split; [intros label key H; now rewrite H|].
  split; [intros label key t; apply token_only_if_present|].
  split; [intros Hs; unfold classToken; now rewrite Hs|].
  split.
  { intros text. unfold textToken. destruct text as [| c r]; cbn [truthy andb].
    - rewrite bool_decide_eq_false_2; [reflexivity | intros [H _]; congruence].
    - apply (f_equal (λ b : bool, if b then _ else _)).
      apply bool_decide_ext. split; [intros H; split; [discriminate | exact H] | intros [_ H]; exact H]. }
  intros el' (Htag & Hsvg & Hid & Hclass & Hname & Htype & Htext).
  unfold generateElementSignature, elementId, className, getAttribute.
  rewrite Htag, Hsvg, Hid, Hclass, Hname, Htype, Htext. reflexivity.
Qed.

(** The button of the specification's scenario, a copy that differs in
    attributes outside the signature, and a button with a class. *)
Example generateElementSignature_samples :
  generateElementSignature (Some goButton) = Some "button|id:go|text:Go"
  ∧ generateElementSignature (Some taglessNode) = None
  ∧ generateElementSignature (Some goButton) = generateElementSignature (Some styledGoButton)
  ∧ generateElementSignature (Some primaryButton) = Some "button|id:go|class:primary|text:Go".
Proof. repeat split; vm_compute; reflexivity. Qed.

(** On an SVG element with a tag name the class token is always there and
    always the same, whatever the attribute [class] holds, so two SVG
    elements that differ in nothing but their class get one signature. *)
Lemma svg_class_token_is_constant el tag :
  isSVG el = true → tagName el = Some tag → tag ≠ "" →
  generateElementSignature (Some el) = Some (join "|" (signatureTokens tag el))
  ∧ classToken el = ["class:[object SVGAnimatedString]"]
  ∧ ∀ value, generateElementSignature (Some (setAttribute el "class" value))
             = generateElementSignature (Some el).
Proof.
  intros Hs Htag Hne.
  split; [now apply generateElementSignature_tagged|].
  split; [unfold classToken; now rewrite Hs|].
  intros value.
  unfold generateElementSignature, elementId, className, getAttribute, setAttribute.
  cbn [tagName isSVG attributes textContent]. rewrite Hs.
  rewrite lookup_insert_eq. rewrite !lookup_insert_ne by discriminate. reflexivity.
Qed.

(** C4. The class token does not follow the class of an SVG element.  The
    circle without a class attribute gets a class token all the same, and the
    token does not carry a class name; the circle with the class highlight
    gets the same signature.  On a button the token carries the class. *)
Theorem svg_signature_ignores_the_class :
  attributes svgCircle !! "class" = None
  ∧ generateElementSignature (Some svgCircle)
    = Some "circle|class:[object SVGAnimatedString]"
  ∧ attributes highlightedSvgCircle !! "class" = Some "highlight"
  ∧ generateElementSignature (Some highlightedSvgCircle)
    = Some "circle|class:[object SVGAnimatedString]"
  ∧ generateElementSignature (Some primaryButton)
    = Some "button|id:go|class:primary|text:Go".
Proof. repeat split; vm_compute; reflexivity. Qed.

(** ** The identity registry *)

Lemma join_cons_nonempty sep c r rest :
  truthy (join sep (String c r :: rest)) = true.
Proof. destruct rest; reflexivity. Qed.

Lemma signature_truthy element s :
  generateElementSignature element = Some s → truthy s = true.
Proof.
  destruct element as [el|]; [| discriminate].
  destruct (tagName el) as [tag|] eqn:Htag; [| unfold generateElementSignature; now rewrite Htag].
  destruct tag as [| c r]; [unfold generateElementSignature; now rewrite Htag|].
  rewrite (generateElementSignature_tagged el (String c r) Htag) by discriminate.
  intros [= <-]. apply join_cons_nonempty.
Qed.

(** A request for a signature the registry does not show: the entry is
    created with count 1 and the bare identifier is returned. *)
Lemma generateStableZenId_first el s m :
  generateElementSignature (Some el) = Some s →
  lookupIn m s = None →
  generateStableZenId (Some el) m
  = (Normal (Some ("zen-" +:+ fnv32a s)),
     {| ownEntries := <[s := {| id := "zen-" +:+ fnv32a s; count := 1 |}]> (ownEntries m);
        countedBuiltins := countedBuiltins m |}).
Proof.
  intros Hs Hl. unfold generateStableZenId. rewrite Hs, (signature_truthy _ _ Hs), Hl.
  reflexivity.
Qed.

(** A request for a signature with a stored entry of count [c >= 1]: the
    identifier carries the suffix [c + 1] and the count becomes [c + 1]. *)
Lemma generateStableZenId_next el s m e :
  generateElementSignature (Some el) = Some s →
  ownEntries m !! s = Some e →
  1 <= count e →
  generateStableZenId (Some el) m
  = (Normal (Some (("zen-" +:+ fnv32a s) +:+ "-" +:+ numberToString 10 (count e + 1))),
     {| ownEntries := <[s := {| id := id e; count := count e + 1 |}]> (ownEntries m);
        countedBuiltins := countedBuiltins m |}).
Proof.
  intros Hs He Hc. unfold generateStableZenId, lookupIn.
  rewrite Hs, (signature_truthy _ _ Hs), He. cbn [negb readCount plusOne toStr].
  destruct (decide (count e = 1)) as [E1 | N1].
  - rewrite E1. reflexivity.
  - replace (strictEqualsOne (VNum (count e))) with false.
    + replace (count e + 1 <? 0) with false by (symmetry; apply Z.ltb_ge; lia).
      reflexivity.
    + unfold strictEqualsOne.
      destruct (count e) as [| [p | p |] | p]; try reflexivity. congruence.
Qed.

Lemma requestTimes_next el s : generateElementSignature (Some el) = Some s →
  ∀ k m e, ownEntries m !! s = Some e → 1 <= count e →
  (∀ i, (i < k)%nat →
        (requestTimes k el m).1 !! i
        = Some (Normal (Some (numberedId s (count e + 1 + Z.of_nat i)))))
  ∧ ownEntries (requestTimes k el m).2 !! s
    = Some {| id := id e; count := count e + Z.of_nat k |}.
Proof.
  intros Hs. induction k as [| k IH]; intros m e He Hc.
  - split; [intros i Hi; lia|]. simpl. rewrite He, Z.add_0_r. now destruct e.
  - cbn [requestTimes]. rewrite (generateStableZenId_next el s m e Hs He Hc).
    set (m' := {| ownEntries := _; countedBuiltins := _ |}).
    specialize (IH m' {| id := id e; count := count e + 1 |}).
    destruct (requestTimes k el m') as [rs m''] eqn:Hr. cbn [fst snd] in *.
    destruct IH as [IHr IHc]; [apply lookup_insert_eq | simpl; lia |].
    split.
    + intros [| i] Hi; cbn [lookup list_lookup].
      * unfold numberedId. rewrite Z.add_0_r.
        replace (count e + 1 =? 1) with false by (symmetry; apply Z.eqb_neq; lia).
        reflexivity.
      * cbn. rewrite IHr by lia. cbn [count]. do 4 f_equal. lia.
    + rewrite IHc. cbn [id count]. do 2 f_equal. lia.
Qed.

(** X1. For a signature that the registry does not show at the start, the
    [n]-th of [k] successive requests returns the bare identifier for n = 1
    and the identifier with suffix n for n >= 2, and the entry ends with
    count [k]. *)
Lemma requestTimes_numbered el s m k :
  generateElementSignature (Some el) = Some s →
  lookupIn m s = None →
  (1 <= k)%nat →
  (∀ n, (1 <= n <= k)%nat →
        (requestTimes k el m).1 !! (n - 1)%nat
        = Some (Normal (Some (numberedId s (Z.of_nat n)))))
  ∧ ownEntries (requestTimes k el m).2 !! s
    = Some {| id := "zen-" +:+ fnv32a s; count := Z.of_nat k |}.
Proof.
  intros Hs Hl Hk. destruct k as [| k]; [lia|].
  cbn [requestTimes]. rewrite (generateStableZenId_first el s m Hs Hl).
  set (m' := {| ownEntries := _; countedBuiltins := _ |}).
  destruct (requestTimes_next el s Hs k m' {| id := "zen-" +:+ fnv32a s; count := 1 |})
    as [Hr Hc]; [apply lookup_insert_eq | simpl; lia |].
  destruct (requestTimes k el m') as [rs m''] eqn:E. cbn [fst snd id count] in *.
  split.
  - intros n Hn. destruct n as [| [| n]]; [lia | reflexivity |].
    replace (S (S n) - 1)%nat with (S n) by lia. cbn [lookup list_lookup].
    cbn. rewrite Hr by lia. do 4 f_equal. lia.
  - rewrite Hc. do 2 f_equal. lia.
Qed.

(** C3. The numbering fails for the signature [constructor]: the registry is
    a plain object, [in] finds the inherited property of that name, and the
    first request already takes the branch for a known signature, where the
    count it reads is not a number: the identifier ends in [-NaN], on the
    first request and on every later one, and no entry is ever stored. *)
Theorem constructor_signature_gets_NaN_suffix :
  generateElementSignature (Some constructorElement) = Some "constructor"
  ∧ (requestTimes 3 constructorElement emptyZenMapping).1
    = [ Normal (Some (("zen-" +:+ fnv32a "constructor") +:+ "-NaN"));
        Normal (Some (("zen-" +:+ fnv32a "constructor") +:+ "-NaN"));
        Normal (Some (("zen-" +:+ fnv32a "constructor") +:+ "-NaN")) ]
  ∧ ownEntries (requestTimes 3 constructorElement emptyZenMapping).2 !! "constructor" = None
  ∧ numberedId "constructor" 1 = "zen-" +:+ fnv32a "constructor"
  ∧ ("zen-" +:+ fnv32a "constructor") +:+ "-NaN" ≠ numberedId "constructor" 1.
Proof.
  repeat split; try (vm_compute; reflexivity).
  vm_compute. discriminate.
Qed.

(** Without a tag name (or without an input) a request returns null and
    leaves the registry as it is; labelling an object that has the attribute
    methods but no tag name completes normally and changes neither the
    object, which stays without a data-zenid attribute, nor the registry;
    labelling an element that already has a data-zenid attribute changes
    neither the element nor the registry. *)
Lemma tagless_with_methods_untouched (el : Element) (m : ZenMapping) :
  generateStableZenId None m = (Normal None, m)
  ∧ (tagName el = None ∨ tagName el = Some "" →
     generateStableZenId (Some el) m = (Normal None, m)
     ∧ labelElement (ElementNode el) m = (Normal tt, ElementNode el, m))
  ∧ (is_Some (attributes el !! "data-zenid") →
     labelElement (ElementNode el) m = (Normal tt, ElementNode el, m)).
Proof.
  split; [reflexivity|].
  split.
  - intros Htag.
    assert (Hg : generateStableZenId (Some el) m = (Normal None, m)).
    { unfold generateStableZenId.
      now rewrite (generateElementSignature_untagged el Htag). }
    split; [exact Hg|].
    unfold labelElement. rewrite Hg. now destruct (negb _).
  - intros Hsome. unfold labelElement, hasAttribute.
    now rewrite bool_decide_eq_true_2.
Qed.

(** C10. A node without a tag name that a click can hit, the document or a
    text node, has no [hasAttribute] method: [labelElement] throws a
    TypeError on it before it asks for an identifier, with any registry, and
    so does the click handler, which then records no event. *)
Theorem labelElement_throws_on_node_without_tag
  (m : ZenMapping) (button clientX clientY : Z) (w : World) :
  labelElement OtherNode m = (Throw TypeError, OtherNode, m)
  ∧ (clickHandler OtherNode button clientX clientY w).1 = Throw TypeError
  ∧ _eventBatch (agent (clickHandler OtherNode button clientX clientY w).2)
    = _eventBatch (agent w)
  ∧ __zenMapping (agent (clickHandler OtherNode button clientX clientY w).2)
    = __zenMapping (agent w).
Proof. repeat split. Qed.

(** ** The user identifier *)

(** A stored, non-empty identifier is returned as it is. *)
Lemma getOrCreateUserId_stored w v :
  storedUserId w = Some v → getOrCreateUserId w = (Normal v, w).
Proof.
  unfold storedUserId, getOrCreateUserId, tryCatch, localStorage_getItem.
  unfold mbind, M_bind.
  destruct (localStorage (host w)) as [| items wr]; [discriminate|].
  destruct (items !! "USERQUERY_uid") as [u|]; [| discriminate].
  destruct (truthy u) eqn:Hu; [| discriminate].
  intros [= <-]. cbn. rewrite Hu. reflexivity.
Qed.

(** Without a stored identifier and with [crypto] undefined, the fallback
    branch reads a property of [undefined]. *)
Lemma getOrCreateUserId_nullish w :
  storedUserId w = None → crypto (host w) = CryptoNullish →
  (getOrCreateUserId w).1 = Throw TypeError.
Proof.
  unfold storedUserId, getOrCreateUserId, tryCatch, localStorage_getItem.
  unfold mbind, M_bind, gets.
  intros Hs Hc.
  destruct (localStorage (host w)) as [| items wr]; cbn.
  - rewrite Hc. reflexivity.
  - destruct (items !! "USERQUERY_uid") as [u|]; cbn.
    + destruct (truthy u); [discriminate|]. cbn. rewrite Hc. reflexivity.
    + rewrite Hc. reflexivity.
Qed.


(** With a usable [crypto], no state of storage makes the function throw,
    and the module-level variables are not touched. *)
Lemma getOrCreateUserId_storage_failures_tolerated w :
  cryptoUsable w →
  ∃ uid, (getOrCreateUserId w).1 = Normal uid
         ∧ agent (getOrCreateUserId w).2 = agent w.
Proof.
  intros (c & Hc & Hm).
  destruct (storedUserId w) as [v|] eqn:Hs.
  { rewrite (getOrCreateUserId_stored w v Hs). eauto. }
  revert Hs.
  unfold storedUserId, getOrCreateUserId, tryCatch, localStorage_getItem,
    localStorage_setItem, consoleWrite, modify.
  unfold mbind, M_bind, gets, mret, M_ret.
  destruct c as [[uuid|] [fill|]];
    try (destruct Hm as [[? Hm] | [? Hm]]; discriminate);
    destruct (localStorage (host w)) as [| items [|]] eqn:Hl;
    repeat (progress (cbn; rewrite ?Hc, ?Hl));
    try (destruct (items !! "USERQUERY_uid") as [u|]; cbn [truthyOpt];
         [destruct (truthy u); [discriminate|] |];
         repeat (progress (cbn; rewrite ?Hc, ?Hl)));
    eauto.
Qed.

Lemma byteToHex_two b : 0 <= b < 256 →
  ∃ x y, byteToHex b = String x (String y EmptyString)
         ∧ isHexDigit x = true ∧ isHexDigit y = true.
Proof.
  intros Hb.
  assert (Hall : forallb (λ n, twoHexDigits (byteToHex (Z.of_nat n))) (seq 0 256) = true)
    by (vm_compute; reflexivity).
  rewrite forallb_forall in Hall.
  specialize (Hall (Z.to_nat b)). rewrite Z2Nat.id in Hall by lia.
  assert (Hin : In (Z.to_nat b) (seq 0 256)) by (apply in_seq; lia).
  specialize (Hall Hin). unfold twoHexDigits in Hall.
  destruct (byteToHex b) as [| x [| y [| z r]]]; try discriminate.
  apply andb_true_iff in Hall. destruct Hall. eauto.
Qed.

(** Whatever bytes [getRandomValues] delivers, the fallback identifier has
    the 8-4-4-4-12 shape. *)
Lemma fallback_uuidShaped fill :
  uuidShaped (uuidFromHex (join "" (map byteToHex (filledArray fill)))) = true.
Proof.
  unfold filledArray. cbn [seq map].
  repeat match goal with
  | |- context [byteToHex ?b] =>
      let x := fresh "x" in let y := fresh "y" in
      let Hx := fresh "Hx" in let Hy := fresh "Hy" in let E := fresh "E" in
      destruct (byteToHex_two b) as (x & y & E & Hx & Hy);
      [apply Z.mod_pos_bound; lia | rewrite E; clear E]
  end.
  cbv -[isHexDigit].
  repeat match goal with H : isHexDigit _ = true |- _ => rewrite H; clear H end.
  reflexivity.
Qed.

(** In a browser without [randomUUID] and without access to storage the
    function warns twice and returns a fallback identifier of the right
    shape, built from the bytes of [getRandomValues]. *)
Example getOrCreateUserId_olderHost :
  (getOrCreateUserId (loaded olderHost)).1 = Normal "03142536-4758-697a-8b9c-adbecfe0f102"
  ∧ uuidShaped "03142536-4758-697a-8b9c-adbecfe0f102" = true
  ∧ console (host (getOrCreateUserId (loaded olderHost)).2)
    = [ Warn "[USERQUERY] localStorage not available. Using in-memory ID.";
        Warn "[USERQUERY] Unable to persist userId to localStorage." ].
Proof. repeat split; vm_compute; reflexivity. Qed.

(** C6. In a host where [crypto] is undefined and storage holds no
    identifier, [getOrCreateUserId] throws a TypeError, and so does the
    [init] that calls it, after it has set [_initialized] and before it has
    attached a listener or started the timer. *)
Theorem getOrCreateUserId_throws_without_crypto :
  storedUserId (loaded hostWithoutCrypto) = None
  ∧ (getOrCreateUserId (loaded hostWithoutCrypto)).1 = Throw TypeError
  ∧ (init emptyConfig (loaded hostWithoutCrypto)).1 = Throw TypeError
  ∧ _initialized (agent (init emptyConfig (loaded hostWithoutCrypto)).2) = true
  ∧ _eventListeners (agent (init emptyConfig (loaded hostWithoutCrypto)).2) = []
  ∧ _batchTimer (agent (init emptyConfig (loaded hostWithoutCrypto)).2) = None.
Proof.
  split; [reflexivity|].
  split; [apply getOrCreateUserId_nullish; reflexivity|].
  repeat split; vm_compute; reflexivity.
Qed.

(** ** The event enricher *)

Lemma enrich_lookup eventName data w k :
  enrich eventName data w !! k
  = match data !! k with
    | Some v => Some v
    | None => baseContext eventName w !! k
    end.
Proof.
  unfold enrich, spread. rewrite lookup_union.
  destruct (data !! k) as [v|]; [| now rewrite (left_id_L None union)].
  now destruct (baseContext eventName w !! k).
Qed.

Lemma trackInternal_appends eventName data w :
  trackInternal eventName data w
  = (Normal tt,
     updAgent (λ a, set_eventBatch (_eventBatch a ++ [enrich eventName data w]) a) w).
Proof. reflexivity. Qed.

(** C9. The enriched event is the base context (eventName, timestamp,
    siteId, userId, url, userAgent, screenSize, language, referrer) with the
    caller's data merged over it: a key of the data keeps the caller's value,
    every other key has the base value; a data key [eventName] replaces the
    event name.  [trackInternal] appends that event to the batch, and so does
    [trackCustom] on an initialised agent. *)
Theorem enrich_caller_keys_win (eventName : string) (data : TrackedEvent) (w : World) :
  dom (baseContext eventName w)
  = list_to_set [ "eventName"; "timestamp"; "siteId"; "userId"; "url";
                  "userAgent"; "screenSize"; "language"; "referrer" ]
  ∧ baseContext eventName w !! "eventName" = Some (VStr eventName)
  ∧ baseContext eventName w !! "timestamp" = Some (VStr (now (page (host w))))
  ∧ baseContext eventName w !! "siteId" = Some (_siteId (agent w))
  ∧ baseContext eventName w !! "userId" = Some (ofOptString (_userId (agent w)))
  ∧ baseContext eventName w !! "url" = Some (VStr (href (page (host w))))
  ∧ baseContext eventName w !! "userAgent" = Some (VStr (userAgent (page (host w))))
  ∧ baseContext eventName w !! "screenSize"
    = Some (VStr (toStr (VNum (screenWidth (page (host w)))) +:+ "x"
                  +:+ toStr (VNum (screenHeight (page (host w))))))
  ∧ baseContext eventName w !! "language" = Some (VStr (language (page (host w))))
  ∧ baseContext eventName w !! "referrer" = Some (VStr (referrer (page (host w))))
  ∧ (∀ k v, data !! k = Some v → enrich eventName data w !! k = Some v)
  ∧ (∀ k, data !! k = None →
          enrich eventName data w !! k = baseContext eventName w !! k)
  ∧ (∀ v, data !! "eventName" = Some v →
          enrich eventName data w !! "eventName" = Some v)
  ∧ _eventBatch (agent (trackInternal eventName data w).2)
    = _eventBatch (agent w) ++ [enrich eventName data w]
  ∧ (_initialized (agent w) = true →
     trackCustom eventName data w = trackInternal eventName data w).
Proof.
  split.
  { unfold baseContext. rewrite dom_list_to_map_L. reflexivity. }
  do 9 (split; [reflexivity|]).
  split; [intros k v H; now rewrite enrich_lookup, H|].
  split; [intros k H; now rewrite enrich_lookup, H|].
  split; [intros v H; now rewrite enrich_lookup, H|].
  split; [reflexivity|].
  intros Hi. unfold trackCustom, mbind, M_bind, gets. now rewrite Hi.
Qed.

Lemma enrich_caller_keys_win_witness :
  enrich "purchase" overridingData startedWorld !! "eventName" = Some (VStr "spoofed")
  ∧ enrich "purchase" overridingData startedWorld !! "plan" = Some (VStr "pro")
  ∧ enrich "purchase" overridingData startedWorld !! "siteId" = Some (VStr "abc")
  ∧ trackCustom "purchase" overridingData startedWorld
    = trackInternal "purchase" overridingData startedWorld.
Proof.
  destruct (enrich_caller_keys_win "purchase" overridingData startedWorld)
    as (_ & _ & _ & Hsite & _ & _ & _ & _ & _ & _ & Hdata & Hbase & Hname & _ & Hcustom).
  split; [apply Hname; reflexivity|].
  split; [apply Hdata; reflexivity|].
  split; [rewrite Hbase by reflexivity; rewrite Hsite; reflexivity|].
  apply Hcustom. reflexivity.
Defined.

(** ** Misuse of the public interface *)

Lemma warned_only_console msg w :
  agent (warned msg w) = agent w
  ∧ listeners (host (warned msg w)) = listeners (host w)
  ∧ intervals (host (warned msg w)) = intervals (host w)
  ∧ fetched (host (warned msg w)) = fetched (host w)
  ∧ pending (host (warned msg w)) = pending (host w)
  ∧ localStorage (host (warned msg w)) = localStorage (host w).
Proof. repeat split. Qed.

Lemma init_when_active w config :
  _initialized (agent w) = true →
  init config w = (Normal tt, warned "[USERQUERY] Already initialized." w).
Proof. intros Hi. unfold init, mbind, M_bind, gets. rewrite Hi. reflexivity. Qed.

Lemma stop_when_inactive w :
  _initialized (agent w) = false →
  stop w = (Normal tt, warned "[USERQUERY] Not initialized or already stopped." w).
Proof. intros Hi. unfold stop, mbind, M_bind, gets. rewrite Hi. reflexivity. Qed.

Lemma trackCustom_when_inactive w eventName data :
  _initialized (agent w) = false →
  trackCustom eventName data w
  = (Normal tt, warned "[USERQUERY] Not initialized. Cannot track custom events." w).
Proof.
  intros Hi. unfold trackCustom, mbind, M_bind, gets. rewrite Hi. reflexivity.
Qed.

(** C7. The three misuse calls complete normally and change nothing but the
    console, to which they add one warning: [init] on an initialised agent
    (no configuration, listener or timer change), [stop] on an agent that is
    not initialised (nothing removed, nothing flushed), [trackCustom] on an
    agent that is not initialised (nothing appended to the batch). *)
Theorem misuse_calls_only_warn (w : World) :
  (_initialized (agent w) = true → ∀ config,
     init config w = (Normal tt, warned "[USERQUERY] Already initialized." w))
  ∧ (_initialized (agent w) = false →
     stop w = (Normal tt, warned "[USERQUERY] Not initialized or already stopped." w))
  ∧ (_initialized (agent w) = false → ∀ eventName data,
     trackCustom eventName data w
     = (Normal tt, warned "[USERQUERY] Not initialized. Cannot track custom events." w))
  ∧ (∀ msg, agent (warned msg w) = agent w
            ∧ listeners (host (warned msg w)) = listeners (host w)
            ∧ intervals (host (warned msg w)) = intervals (host w)
            ∧ fetched (host (warned msg w)) = fetched (host w)).
Proof.
  split; [| split; [| split]].
  - intros Hi config. now apply init_when_active.
  - apply stop_when_inactive.
  - intros Hi eventName data. now apply trackCustom_when_inactive.
  - intros msg. repeat split.
Qed.

Lemma misuse_calls_only_warn_witness :
  init sampleConfig startedWorld
  = (Normal tt, warned "[USERQUERY] Already initialized." startedWorld)
  ∧ stop (loaded modernHost)
    = (Normal tt, warned "[USERQUERY] Not initialized or already stopped." (loaded modernHost))
  ∧ trackCustom "purchase" overridingData (loaded modernHost)
    = (Normal tt,
       warned "[USERQUERY] Not initialized. Cannot track custom events." (loaded modernHost)).
Proof.
  destruct (misuse_calls_only_warn startedWorld) as (Hinit & _).
  destruct (misuse_calls_only_warn (loaded modernHost)) as (_ & Hstop & Htrack & _).
  split; [apply Hinit; reflexivity|].
  split; [apply Hstop; reflexivity|].
  apply Htrack. reflexivity.
Defined.

(** ** Flushing *)

Lemma flushEventBatch_empty w :
  _eventBatch (agent w) = [] → flushEventBatch w = (Normal tt, w).
Proof. intros H. unfold flushEventBatch. now rewrite H. Qed.

Lemma flushError_empty w : _eventBatch (agent w) = [] → flushError w = None.
Proof. intros H. unfold flushError. now rewrite H. Qed.

(** There is something to send and nothing stands in the way: one call of
    [fetch]. *)
Lemma flushEventBatch_sends w :
  _eventBatch (agent w) ≠ [] → flushError w = None →
  flushEventBatch w
  = (Normal tt,
     updHost (λ h, set_requests (fetched h ++ [requestOf w]) (pending h ++ [requestOf w]) h) w).
Proof.
  intros Hne. unfold flushEventBatch, flushError, requestOf. cbn [body].
  destruct (_eventBatch (agent w)) as [| ev evs] eqn:E; [congruence|]. cbn [length Nat.eqb].
  destruct (fetch (host w)); try discriminate.
  destruct (stringifies _); [reflexivity | discriminate].
Qed.

(** [fetch] is missing or the payload cannot be serialised: the flush
    throws and nothing has changed. *)
Lemma flushEventBatch_throws w e :
  flushError w = Some e → flushEventBatch w = (Throw e, w).
Proof.
  unfold flushEventBatch, flushError, requestOf. cbn [body].
  destruct (_eventBatch (agent w)) as [| ev evs] eqn:E; [discriminate|]. cbn [length Nat.eqb].
  destruct (fetch (host w)); try (now intros [= <-]);
    destruct (stringifies _); cbn [negb]; intros [= <-]; reflexivity.
Qed.

Lemma flushEventBatch_completion w : (flushEventBatch w).1 = completionOf (flushError w).
Proof.
  destruct (flushError w) as [e|] eqn:He.
  - now rewrite (flushEventBatch_throws w e He).
  - destruct (_eventBatch (agent w)) as [| ev evs] eqn:E.
    + now rewrite (flushEventBatch_empty w E).
    + rewrite flushEventBatch_sends; [reflexivity | rewrite E; discriminate | exact He].
Qed.

(** The flush itself never touches the module-level variables. *)
Lemma flushEventBatch_agent w : agent (flushEventBatch w).2 = agent w.
Proof.
  destruct (flushError w) as [e|] eqn:He.
  - now rewrite (flushEventBatch_throws w e He).
  - destruct (_eventBatch (agent w)) as [| ev evs] eqn:E.
    + now rewrite (flushEventBatch_empty w E).
    + rewrite flushEventBatch_sends; [reflexivity | rewrite E; discriminate | exact He].
Qed.

(** Whenever a pending request settles, whatever the outcome and whatever
    the batch holds at that moment, the callback leaves the batch empty. *)
Lemma settle_empties_batch w i outcome :
  is_Some (pending (host w) !! i) →
  (settle i outcome w).1 = Normal tt
  ∧ _eventBatch (agent (settle i outcome w).2) = [].
Proof.
  intros [r Hr]. unfold settle. rewrite Hr.
  destruct outcome as [| status |]; split; reflexivity.
Qed.

Lemma flushEventBatch_keeps_batch w :
  _eventBatch (agent w) ≠ [] → _eventBatch (agent (flushEventBatch w).2) ≠ [].
Proof. intros H. now rewrite flushEventBatch_agent. Qed.

(** The claim C1 as stated, that the flush step itself empties a non-empty
    batch, fails: after [init] and one [trackCustom], a flush leaves the
    recorded event in the batch. *)
Lemma flush_step_clears_batch_counterexample :
  ¬ (∀ w, _eventBatch (agent w) ≠ [] →
          _eventBatch (agent (flushEventBatch w).2) = []).
Proof.
  intros H.
  assert (Hlen : length (_eventBatch (agent recordedWorld)) = 1%nat)
    by (vm_compute; reflexivity).
  assert (Hn : _eventBatch (agent recordedWorld) ≠ []).
  { intros E. rewrite E in Hlen. discriminate Hlen. }
  exact (flushEventBatch_keeps_batch recordedWorld Hn (H recordedWorld Hn)).
Qed.

(** C1, amended. With an empty batch [flushEventBatch] does nothing and
    calls nothing.  With a non-empty batch, [fetch] at hand and a payload
    that can be serialised, it makes one call of [fetch] that carries the
    whole batch in order together with [_userId] and [_siteId].  In every
    case the flush step leaves the module-level variables, the batch
    included, as they are. *)
Theorem flushEventBatch_sends_and_keeps_batch (w : World) :
  (_eventBatch (agent w) = [] → flushEventBatch w = (Normal tt, w))
  ∧ (_eventBatch (agent w) ≠ [] →
     fetch (host w) = FetchFunction →
     stringifies (body (requestOf w)) = true →
     (flushEventBatch w).1 = Normal tt
     ∧ fetched (host (flushEventBatch w).2) = fetched (host w) ++ [requestOf w]
     ∧ pending (host (flushEventBatch w).2) = pending (host w) ++ [requestOf w]
     ∧ events (body (requestOf w)) = _eventBatch (agent w)
     ∧ userId (body (requestOf w)) = _userId (agent w)
     ∧ payloadSiteId (body (requestOf w)) = _siteId (agent w))
  ∧ agent (flushEventBatch w).2 = agent w
  ∧ _eventBatch (agent (flushEventBatch w).2) = _eventBatch (agent w).
Proof.
  split; [apply flushEventBatch_empty|].
  split.
  - intros Hne Hf Hs.
    assert (He : flushError w = None).
    { unfold flushError. rewrite Hf, Hs. now destruct (_eventBatch (agent w)). }
    rewrite (flushEventBatch_sends w Hne He). cbn [fst snd]. repeat split.
  - split; [apply flushEventBatch_agent | now rewrite flushEventBatch_agent].
Qed.

Lemma flushEventBatch_sends_and_keeps_batch_witness :
  flushEventBatch (loaded modernHost) = (Normal tt, loaded modernHost)
  ∧ length (_eventBatch (agent recordedWorld)) = 1%nat
  ∧ fetched (host (flushEventBatch recordedWorld).2) = [requestOf recordedWorld]
  ∧ agent (flushEventBatch recordedWorld).2 = agent recordedWorld.
Proof.
  destruct (flushEventBatch_sends_and_keeps_batch (loaded modernHost)) as (H0 & _).
  destruct (flushEventBatch_sends_and_keeps_batch recordedWorld) as (_ & H1 & Ha & _).
  assert (Hlen : length (_eventBatch (agent recordedWorld)) = 1%nat)
    by (vm_compute; reflexivity).
  assert (Hn : _eventBatch (agent recordedWorld) ≠ []).
  { intros E. rewrite E in Hlen. discriminate Hlen. }
  assert (Hf : fetch (host recordedWorld) = FetchFunction) by (vm_compute; reflexivity).
  assert (Hs : stringifies (body (requestOf recordedWorld)) = true)
    by (vm_compute; reflexivity).
  split; [apply H0; reflexivity|].
  split; [exact Hlen|].
  destruct (H1 Hn Hf Hs) as (_ & Hfe & _).
  split; [| exact Ha].
  assert (Hnone : fetched (host recordedWorld) = []) by (vm_compute; reflexivity).
  rewrite Hfe, Hnone. reflexivity.
Defined.

(** C2. An event recorded between a flush and the settling of its request is
    lost.  In the run init, trackCustom first, timer, trackCustom second,
    response, timer, stop: the event second is in the batch after it is
    recorded, the response callback empties the batch, and the two later
    flushes find nothing to send; only first is ever delivered. *)
Theorem event_recorded_during_flush_is_lost :
  eventNames (_eventBatch (agent (run (take 4 raceRun) (loaded modernHost))))
  = [Some (VStr "first"); Some (VStr "second")]
  ∧ eventNames (deliveredEvents (run (take 4 raceRun) (loaded modernHost)))
    = [Some (VStr "first")]
  ∧ _eventBatch (agent (run (take 5 raceRun) (loaded modernHost))) = []
  ∧ eventNames (deliveredEvents (run raceRun (loaded modernHost)))
    = [Some (VStr "first")]
  ∧ pending (host (run raceRun (loaded modernHost))) = []
  ∧ _eventBatch (agent (run raceRun (loaded modernHost))) = [].
Proof. repeat split; vm_compute; reflexivity. Qed.

(** ** The life cycle *)

Lemma wp_bind {A B} (m : M A) (f : A → M B) Q w :
  wp m (λ c w', match c with
                | Normal a => wp (f a) Q w'
                | Throw e => Q (Throw e) w'
                end) w →
  wp (m ≫= f) Q w.
Proof.
  unfold wp, mbind, M_bind. destruct (m w) as [[a | e] w']; auto.
Qed.

Lemma wp_gets {A} (g : World → A) (Q : Completion A → World → Prop) w :
  Q (Normal (g w)) w → wp (gets g) Q w.
Proof. auto. Qed.

Lemma wp_modify (h : World → World) (Q : Completion unit → World → Prop) w :
  Q (Normal tt) (h w) → wp (modify h) Q w.
Proof. auto. Qed.

Lemma wp_ret {A} (a : A) (Q : Completion A → World → Prop) w :
  Q (Normal a) w → wp (mret a) Q w.
Proof. auto. Qed.

Lemma wp_consoleWrite line (Q : Completion unit → World → Prop) w :
  Q (Normal tt) (updHost (λ h, set_console (console h ++ [line]) h) w) →
  wp (consoleWrite line) Q w.
Proof. auto. Qed.

Ltac wp_step :=
  lazymatch goal with
  | |- wp (_ ≫= _) _ _ => apply wp_bind
  | |- wp (gets _) _ _ => apply wp_gets; cbn beta iota
  | |- wp (modify _) _ _ => apply wp_modify; cbn beta iota
  | |- wp (consoleWrite _) _ _ => apply wp_consoleWrite; cbn beta iota
  | |- wp (mret _) _ _ => apply wp_ret; cbn beta iota
  end.

(** What the operations leave alone. *)
Lemma getOrCreateUserId_frame w :
  agent (getOrCreateUserId w).2 = agent w
  ∧ listeners (host (getOrCreateUserId w).2) = listeners (host w)
  ∧ intervals (host (getOrCreateUserId w).2) = intervals (host w)
  ∧ nextTimerId (host (getOrCreateUserId w).2) = nextTimerId (host w)
  ∧ nextClosure (host (getOrCreateUserId w).2) = nextClosure (host w)
  ∧ page (host (getOrCreateUserId w).2) = page (host w).
Proof.
  unfold getOrCreateUserId, tryCatch, localStorage_getItem,
    localStorage_setItem, consoleWrite, modify.
  unfold mbind, M_bind, gets, mret, M_ret, throw.
  destruct (localStorage (host w)) as [| items [|]] eqn:Hl;
  destruct (crypto (host w)) as [| | [[uuid|] [fill|]]] eqn:Hc;
    repeat (progress (cbn; rewrite ?Hc, ?Hl)); auto;
    try (destruct (items !! "USERQUERY_uid") as [u|]; cbn [truthyOpt];
         [destruct (truthy u) |];
         repeat (progress (cbn; rewrite ?Hc, ?Hl))); auto 10.
Qed.

Lemma forEach_attach ls : ∀ w,
  (forEach attach ls w).1 = Normal tt
  ∧ agent (forEach attach ls w).2
    = set_eventListeners (_eventListeners (agent w) ++ ls) (agent w)
  ∧ host (forEach attach ls w).2
    = set_listeners (listeners (host (forEach attach ls w).2)) (host w)
  ∧ (∀ r, r ∈ listeners (host w) → r ∈ listeners (host (forEach attach ls w).2))
  ∧ (∀ l, l ∈ ls → registrationOf l ∈ listeners (host (forEach attach ls w).2)).
Proof.
  induction ls as [| l ls IH]; intros w.
  - cbn. split; [reflexivity|]. split; [rewrite app_nil_r; now destruct w as [[] []]|].
    split; [now destruct w as [[] []]|]. split; [auto|].
    intros l H. inversion H.
  - cbn [forEach]. unfold mbind, M_bind.
    destruct (attach l w) as [c w1] eqn:Ha.
    assert (Hw1 : c = Normal tt
                  ∧ agent w1 = set_eventListeners (_eventListeners (agent w) ++ [l]) (agent w)
                  ∧ host w1 = set_listeners (listeners (host w1)) (host w)
                  ∧ (∀ r, r ∈ listeners (host w) → r ∈ listeners (host w1))
                  ∧ registrationOf l ∈ listeners (host w1)).
    { unfold attach, addEventListener, modify, mbind, M_bind in Ha.
      cbn in Ha. injection Ha as <- <-. cbn.
      destruct (bool_decide (registrationOf l ∈ listeners (host w))) eqn:Hd; cbn.
      - apply bool_decide_eq_true in Hd. repeat split; auto. now destruct w as [[] []].
      - repeat split; auto.
        + intros r Hr. apply elem_of_app. now left.
        + apply elem_of_app. right. apply list_elem_of_singleton. reflexivity. }
    destruct Hw1 as (-> & Hag & Hho & Hkeep & Hl).
    destruct (IH w1) as (Hc & Hag' & Hho' & Hkeep' & Hls).
    split; [exact Hc|].
    split.
    { rewrite Hag', Hag. cbn. rewrite <- app_assoc. reflexivity. }
    split.
    { rewrite Hho' at 1. rewrite Hho. reflexivity. }
    split.
    { intros r Hr. apply Hkeep', Hkeep, Hr. }
    intros l' Hl'. apply elem_of_cons in Hl' as [-> | Hl'].
    + apply Hkeep', Hl.
    + apply Hls, Hl'.
Qed.

Lemma attachCoreEventListeners_spec w :
  (attachCoreEventListeners w).1 = Normal tt
  ∧ agent (attachCoreEventListeners w).2
    = set_eventListeners (_eventListeners (agent w) ++ coreListeners (nextClosure (host w))) (agent w)
  ∧ host (attachCoreEventListeners w).2
    = set_listeners (listeners (host (attachCoreEventListeners w).2))
        (set_nextClosure (S (nextClosure (host w))) (host w))
  ∧ (∀ l, l ∈ coreListeners (nextClosure (host w)) →
          registrationOf l ∈ listeners (host (attachCoreEventListeners w).2)).
Proof.
  unfold attachCoreEventListeners, mbind, M_bind, gets, modify.
  set (w1 := updHost (set_nextClosure (S (nextClosure (host w)))) w).
  destruct (forEach_attach (coreListeners (nextClosure (host w))) w1)
    as (Hc & Hag & Hho & _ & Hls).
  split; [exact Hc|]. split; [exact Hag|]. split; [exact Hho|]. exact Hls.
Qed.

Lemma filter_everything {A} (P : A → Prop) `{∀ x, Decision (P x)} (l : list A) :
  (∀ x, P x) → filter P l = l.
Proof.
  intros HP. induction l as [| x l IH]; [reflexivity|].
  rewrite filter_cons_True by apply HP. now rewrite IH.
Qed.

Lemma forEach_remove ls : ∀ w,
  forEach (λ l, removeEventListener (registrationOf l)) ls w
  = (Normal tt,
     updHost (λ h, set_listeners
                     (filter (λ r, r ∉ map registrationOf ls) (listeners h)) h) w).
Proof.
  induction ls as [| l ls IH]; intros w.
  - cbn. f_equal. destruct w as [a h]. unfold updHost. cbn. f_equal.
    destruct h. unfold set_listeners. cbn. f_equal.
    symmetry. apply filter_everything. intros r H. inversion H.
  - cbn [forEach]. unfold mbind, M_bind, removeEventListener at 1, modify.
    rewrite IH. f_equal. destruct w as [a h]. unfold updHost. cbn. f_equal.
    unfold set_listeners. cbn. f_equal.
    rewrite list_filter_filter. apply list_filter_iff. intros r. cbn.
    rewrite not_elem_of_cons. tauto.
Qed.

Lemma flushRequests_ext w1 w2 :
  _eventBatch (agent w1) = _eventBatch (agent w2) →
  _userId (agent w1) = _userId (agent w2) →
  _siteId (agent w1) = _siteId (agent w2) →
  fetch (host w1) = fetch (host w2) →
  flushError w1 = flushError w2 ∧ flushRequests w1 = flushRequests w2.
Proof.
  intros Hb Hu Hs Hf. unfold flushRequests, flushError, requestOf.
  now rewrite Hb, Hu, Hs, Hf.
Qed.

Lemma flushRequests_throws w e : flushError w = Some e → flushRequests w = [].
Proof. intros He. unfold flushRequests. rewrite He. now destruct (_eventBatch (agent w)). Qed.

Lemma updHost_no_requests w :
  updHost (λ h, set_requests (fetched h ++ []) (pending h ++ []) h) w = w.
Proof.
  destruct w as [a h]. unfold updHost, set_requests. cbn.
  rewrite !app_nil_r. now destruct h.
Qed.

(** A flush in one equation: its completion, and the requests it adds. *)
Lemma flushEventBatch_exact w :
  flushEventBatch w
  = (completionOf (flushError w),
     updHost (λ h, set_requests (fetched h ++ flushRequests w)
                                (pending h ++ flushRequests w) h) w).
Proof.
  destruct (flushError w) as [e|] eqn:He.
  - rewrite (flushEventBatch_throws w e He), (flushRequests_throws w e He).
    now rewrite updHost_no_requests.
  - unfold flushRequests. rewrite He.
    destruct (_eventBatch (agent w)) as [| ev evs] eqn:E.
    + rewrite (flushEventBatch_empty w E). now rewrite updHost_no_requests.
    + rewrite flushEventBatch_sends; [reflexivity | rewrite E; discriminate | exact He].
Qed.


Lemma wp_getOrCreateUserId (Q : Completion string → World → Prop) w :
  (∀ c w', agent w' = agent w →
           listeners (host w') = listeners (host w) →
           intervals (host w') = intervals (host w) →
           nextTimerId (host w') = nextTimerId (host w) →
           nextClosure (host w') = nextClosure (host w) →
           Q c w') →
  wp getOrCreateUserId Q w.
Proof.
  intros H. unfold wp.
  destruct (getOrCreateUserId_frame w) as (Fa & Fl & Fi & Ft & Fc & _).
  now apply H.
Qed.

Lemma wp_attachCoreEventListeners (Q : Completion unit → World → Prop) w :
  (∀ w', agent w' = set_eventListeners
                      (_eventListeners (agent w) ++ coreListeners (nextClosure (host w)))
                      (agent w) →
         intervals (host w') = intervals (host w) →
         nextTimerId (host w') = nextTimerId (host w) →
         (∀ l, l ∈ coreListeners (nextClosure (host w)) →
               registrationOf l ∈ listeners (host w')) →
         Q (Normal tt) w') →
  wp attachCoreEventListeners Q w.
Proof.
  intros H. unfold wp.
  destruct (attachCoreEventListeners_spec w) as (Hc & Ha & Hh & Hl).
  rewrite Hc. apply H; [exact Ha | now rewrite Hh | now rewrite Hh | exact Hl].
Qed.

Lemma wp_trackInternal eventName data (Q : Completion unit → World → Prop) w :
  Q (Normal tt)
    (updAgent (λ a, set_eventBatch (_eventBatch a ++ [enrich eventName data w]) a) w) →
  wp (trackInternal eventName data) Q w.
Proof. auto. Qed.

Lemma wp_setInterval period (Q : Completion Z → World → Prop) w :
  Q (Normal (nextTimerId (host w)))
    (updHost (λ h, set_timers (intervals h ++ [(nextTimerId (host w), period)])
                              (nextTimerId (host w) + 1) h) w) →
  wp (setInterval period) Q w.
Proof. auto. Qed.

Lemma wp_if {A} (b : bool) (m1 m2 : M A) Q w :
  (b = true → wp m1 Q w) → (b = false → wp m2 Q w) →
  wp (if b then m1 else m2) Q w.
Proof. destruct b; auto. Qed.

Lemma init_inactive config w :
  _initialized (agent w) = false →
  wp (init config)
     (λ c w',
        _initialized (agent w') = true
        ∧ (c = Normal tt →
           _eventListeners (agent w')
           = _eventListeners (agent w) ++ coreListeners (nextClosure (host w))
           ∧ (∀ l, l ∈ coreListeners (nextClosure (host w)) →
                   registrationOf l ∈ listeners (host w'))
           ∧ _batchTimer (agent w') = Some (nextTimerId (host w))
           ∧ (nextTimerId (host w),
              property (objectAssign (objectAssign emptyConfig DEFAULT_CONFIG) config) "batchInterval")
             ∈ intervals (host w'))) w.
Proof.
  intros Hi. unfold init.
  wp_step. wp_step. rewrite Hi.
  repeat wp_step.
  apply wp_getOrCreateUserId. intros [uid | e] w2 Fa Fl Fi Ft Fc; cbn beta iota.
  2:{ split; [now rewrite Fa | discriminate]. }
  repeat wp_step.
  apply wp_attachCoreEventListeners. intros w4 Aa Ai At Al; cbn beta iota.
  repeat wp_step.
  assert (Hstep : ∀ w5, host w5 = host w4 →
            _initialized (agent w5) = true →
            _eventListeners (agent w5)
            = _eventListeners (agent w) ++ coreListeners (nextClosure (host w)) →
            _config (agent w5)
            = objectAssign (objectAssign emptyConfig DEFAULT_CONFIG) config →
            wp (gets (λ w0, property (_config (agent w0)) "batchInterval")
                ≫= λ period, setInterval period
                ≫= λ t, modify (updAgent (set_batchTimer (Some t))))
               (λ c w',
                  _initialized (agent w') = true
                  ∧ (c = Normal tt →
                     _eventListeners (agent w')
                     = _eventListeners (agent w) ++ coreListeners (nextClosure (host w))
                     ∧ (∀ l, l ∈ coreListeners (nextClosure (host w)) →
                             registrationOf l ∈ listeners (host w'))
                     ∧ _batchTimer (agent w') = Some (nextTimerId (host w))
                     ∧ (nextTimerId (host w),
                        property (objectAssign (objectAssign emptyConfig DEFAULT_CONFIG) config) "batchInterval")
                       ∈ intervals (host w'))) w5).
  { intros w5 Hh H5i H5l H5c.
    repeat wp_step. apply wp_setInterval. cbn beta iota. repeat wp_step.
    assert (Ht5 : nextTimerId (host w5) = nextTimerId (host w)).
    { rewrite Hh, At. cbn. exact Ft. }
    split; [exact H5i|]. intros _.
    split; [exact H5l|].
    split.
    { intros l Hl. cbn. rewrite Hh. apply Al. cbn. now rewrite Fc. }
    split.
    { cbn. now rewrite Ht5. }
    cbn. rewrite Ht5, H5c. apply elem_of_app. right.
    apply list_elem_of_singleton. reflexivity. }
  assert (A4i : _initialized (agent w4) = true) by (rewrite Aa; cbn; now rewrite Fa).
  assert (A4l : _eventListeners (agent w4)
                = _eventListeners (agent w) ++ coreListeners (nextClosure (host w))).
  { rewrite Aa. cbn. rewrite Fa, Fc. reflexivity. }
  assert (A4c : _config (agent w4)
                = objectAssign (objectAssign emptyConfig DEFAULT_CONFIG) config).
  { rewrite Aa. cbn. rewrite Fa. reflexivity. }
  apply wp_if; intros _.
  - apply wp_trackInternal. apply Hstep; auto.
  - wp_step. apply Hstep; auto.
Qed.



Lemma wp_flushEventBatch_exact (Q : Completion unit → World → Prop) w :
  Q (completionOf (flushError w))
    (updHost (λ h, set_requests (fetched h ++ flushRequests w)
                                (pending h ++ flushRequests w) h) w) →
  wp flushEventBatch Q w.
Proof. intros H. unfold wp. now rewrite flushEventBatch_exact. Qed.

Lemma wp_forEach_remove ls (Q : Completion unit → World → Prop) w :
  Q (Normal tt)
    (updHost (λ h, set_listeners
                     (filter (λ r, r ∉ map registrationOf ls) (listeners h)) h) w) →
  wp (forEach (λ l, removeEventListener (registrationOf l)) ls) Q w.
Proof. intros H. unfold wp. now rewrite forEach_remove. Qed.

Lemma wp_clearInterval t (Q : Completion unit → World → Prop) w :
  Q (Normal tt)
    (updHost (λ h, set_timers (filter (λ p, p.1 ≠ t) (intervals h)) (nextTimerId h) h) w) →
  wp (clearInterval t) Q w.
Proof. auto. Qed.

(** Everything [stop] does to an initialised agent.  The flush comes after
    the listeners are removed and before the timer is cleared: when it
    throws, [stop] ends there. *)
Lemma stop_active_full w :
  _initialized (agent w) = true →
  wp stop
     (λ c w',
        c = completionOf (flushError w)
        ∧ _initialized (agent w') = false
        ∧ _eventListeners (agent w') = []
        ∧ _batchTimer (agent w') = batchTimerAfterStop w
        ∧ _eventBatch (agent w') = _eventBatch (agent w)
        ∧ _siteId (agent w') = _siteId (agent w)
        ∧ _userId (agent w') = _userId (agent w)
        ∧ _config (agent w') = _config (agent w)
        ∧ __zenMapping (agent w') = __zenMapping (agent w)
        ∧ listeners (host w') = listenersAfterStop w
        ∧ intervals (host w') = intervalsAfterStop w
        ∧ nextTimerId (host w') = nextTimerId (host w)
        ∧ nextClosure (host w') = nextClosure (host w)
        ∧ fetched (host w') = fetched (host w) ++ flushRequests w
        ∧ pending (host w') = pending (host w) ++ flushRequests w
        ∧ localStorage (host w') = localStorage (host w)
        ∧ crypto (host w') = crypto (host w)
        ∧ fetch (host w') = fetch (host w)
        ∧ page (host w') = page (host w)
        ∧ console (host w')
          = console (host w) ++ [Log "[USERQUERY] Stopping. Removing event listeners..."]) w.
Proof.
  intros Hi. unfold stop.
  wp_step. wp_step. rewrite Hi. cbn [negb].
  repeat wp_step.
  apply wp_forEach_remove. cbn beta iota. repeat wp_step.
  apply wp_flushEventBatch_exact.
  match goal with |- context [flushRequests ?x] =>
    destruct (flushRequests_ext x w) as [He Hr]; [reflexivity .. |]; rewrite He, Hr; clear He Hr
  end.
  unfold batchTimerAfterStop, intervalsAfterStop, listenersAfterStop.
  destruct (flushError w) as [e|] eqn:Hfe; cbn [completionOf].
  { cbn [agent host updAgent updHost set_initialized set_eventListeners set_console
         set_listeners set_requests _batchTimer].
    repeat split. }
  wp_step. wp_step.
  cbn [agent host updAgent updHost set_initialized set_eventListeners set_console
       set_listeners set_requests _batchTimer].
  destruct (_batchTimer (agent w)) as [t|] eqn:Hb.
  - destruct (t =? 0) eqn:Ht0; cbn [negb].
    + wp_step. cbn. rewrite ?Hb. repeat split.
    + wp_step. apply wp_clearInterval. cbn beta iota. wp_step.
      cbn. repeat split.
  - wp_step. cbn. rewrite ?Hb. repeat split.
Qed.

Lemma settle_initialized i outcome w :
  _initialized (agent (settle i outcome w).2) = _initialized (agent w).
Proof.
  unfold settle. destruct (pending (host w) !! i); [| reflexivity].
  destruct outcome; reflexivity.
Qed.

Lemma timerFires_agent t w : agent (timerFires t w).2 = agent w.
Proof.
  unfold timerFires. destruct (bool_decide _); [| reflexivity].
  apply flushEventBatch_agent.
Qed.

Lemma perform_keeps_inactive a w :
  (∀ config, a ≠ CallInit config) →
  _initialized (agent w) = false →
  _initialized (agent (perform a w).2) = false.
Proof.
  intros Ha Hi. destruct a as [config | | eventName data | t | i outcome]; cbn [perform].
  - now destruct (Ha config).
  - now rewrite (stop_when_inactive w Hi).
  - now rewrite (trackCustom_when_inactive w eventName data Hi).
  - now rewrite timerFires_agent.
  - now rewrite settle_initialized.
Qed.

(** The claim C8 as stated, that an instance that was started and stopped
    never becomes active again, fails: a second [init] activates it, with
    seven listeners and a timer. *)
Lemma stopped_is_terminal_counterexample :
  ¬ (∀ h config1 config2,
       _initialized (agent (run [CallInit config1; CallStop; CallInit config2] (loaded h)))
       = false
       ∧ _eventListeners
           (agent (run [CallInit config1; CallStop; CallInit config2] (loaded h))) = []
       ∧ _batchTimer
           (agent (run [CallInit config1; CallStop; CallInit config2] (loaded h))) = None).
Proof.
  intros H. destruct (H modernHost sampleConfig sampleConfig) as (Hi & _).
  vm_compute in Hi. discriminate.
Qed.

(** C8, amended. [stop] on an initialised agent leaves it not initialised,
    with no recorded listener (and completes normally unless the flush
    throws); every later action other than [init] (stop, trackCustom, a timer
    tick, a settling request) leaves it not initialised.  A later [init],
    however, makes it initialised again, and when it completes normally it
    has recorded and registered the seven listeners anew and started a new
    timer. *)
Theorem stopped_agent_restarts_on_init (w : World) :
  _initialized (agent w) = true →
  (flushError w = None → (stop w).1 = Normal tt)
  ∧ _initialized (agent (stop w).2) = false
  ∧ _eventListeners (agent (stop w).2) = []
  ∧ (∀ a, (∀ config, a ≠ CallInit config) →
          _initialized (agent (perform a (stop w).2).2) = false)
  ∧ (∀ config,
       _initialized (agent (init config (stop w).2).2) = true
       ∧ ((init config (stop w).2).1 = Normal tt →
          _eventListeners (agent (init config (stop w).2).2)
          = coreListeners (nextClosure (host w))
          ∧ (∀ l, l ∈ coreListeners (nextClosure (host w)) →
                  registrationOf l ∈ listeners (host (init config (stop w).2).2))
          ∧ _batchTimer (agent (init config (stop w).2).2) = Some (nextTimerId (host w))
          ∧ (nextTimerId (host w),
             property (objectAssign (objectAssign emptyConfig DEFAULT_CONFIG) config)
               "batchInterval")
            ∈ intervals (host (init config (stop w).2).2))).
Proof.
  intros Hi. pose proof (stop_active_full w Hi) as Hs. unfold wp in Hs.
  remember (stop w) as r eqn:Hr. destruct r as [c w2]. cbn [fst snd] in *.
  destruct Hs as (Hc & Hi2 & Hl2 & _ & _ & _ & _ & _ & _ & _ & _ & Ht2 & Hn2 & _).
  split; [intros He; now rewrite Hc, He|].
  split; [exact Hi2|]. split; [exact Hl2|].
  split; [intros a Ha; now apply perform_keeps_inactive|].
  intros config. pose proof (init_inactive config w2 Hi2) as Hinit. unfold wp in Hinit.
  rewrite Hl2, Hn2, Ht2 in Hinit. exact Hinit.
Qed.

Lemma stopped_agent_restarts_on_init_witness :
  _initialized (agent startedWorld) = true
  ∧ (stop startedWorld).1 = Normal tt
  ∧ _initialized (agent (stop startedWorld).2) = false
  ∧ _initialized (agent (init sampleConfig (stop startedWorld).2).2) = true
  ∧ length (_eventListeners (agent (init sampleConfig (stop startedWorld).2).2)) = 7%nat.
Proof.
  assert (Hi : _initialized (agent startedWorld) = true) by (vm_compute; reflexivity).
  assert (He : flushError startedWorld = None) by (vm_compute; reflexivity).
  destruct (stopped_agent_restarts_on_init startedWorld Hi) as (Hc & Hs & _ & _ & Hinit).
  destruct (Hinit sampleConfig) as (Ha & Hrest).
  split; [exact Hi|]. split; [exact (Hc He)|]. split; [exact Hs|]. split; [exact Ha|].
  destruct Hrest as (Hl & _); [vm_compute; reflexivity|].
  rewrite Hl. reflexivity.
Defined.

(** ** The click scenario of the specification *)

(** After [init] with site [abc], one click on the button with id [go] and
    text [Go] records one event named click whose [dataZenId] is the hash of
    the button's signature and whose [tagName] is BUTTON. *)
Example click_on_go_button :
  eventNames (_eventBatch (agent (clickHandler (ElementNode goButton) 0 10 20 startedWorld).2))
  = [Some (VStr "click")]
  ∧ (_eventBatch (agent (clickHandler (ElementNode goButton) 0 10 20 startedWorld).2))
      !! 0%nat ≫= (.!! "dataZenId")
    = Some (VStr ("zen-" +:+ fnv32a "button|id:go|text:Go"))
  ∧ (_eventBatch (agent (clickHandler (ElementNode goButton) 0 10 20 startedWorld).2))
      !! 0%nat ≫= (.!! "tagName")
    = Some (VStr "BUTTON")
  ∧ (_eventBatch (agent (clickHandler (ElementNode goButton) 0 10 20 startedWorld).2))
      !! 0%nat ≫= (.!! "siteId")
    = Some (VStr "abc").
Proof. repeat split; vm_compute; reflexivity. Qed.

(** * Further properties *)

(** ** Strings *)

Lemma append_cons c a b : String c a +:+ b = String c (a +:+ b).
Proof. reflexivity. Qed.

Lemma append_inj_l a x y : a +:+ x = a +:+ y → x = y.
Proof.
  induction a as [| c a IH]; [auto|]. rewrite !append_cons. intros [= H]. auto.
Qed.

Lemma append_length a b :
  String.length (a +:+ b) = (String.length a + String.length b)%nat.
Proof.
  induction a as [| c a IH]; [reflexivity|].
  rewrite append_cons. cbn [String.length]. now rewrite IH.
Qed.

Lemma numberToString_inj radix n m :
  2 <= radix <= 36 → 0 <= n → 0 <= m →
  numberToString radix n = numberToString radix m → n = m.
Proof.
  intros Hr Hn Hm E.
  rewrite <- (numberToString_value radix n Hr Hn), <- (numberToString_value radix m Hr Hm).
  now rewrite E.
Qed.

Lemma numberedId_injective s n m :
  1 <= n → 1 <= m → numberedId s n = numberedId s m → n = m.
Proof.
  intros Hn Hm. unfold numberedId.
  destruct (n =? 1) eqn:En; destruct (m =? 1) eqn:Em.
  - apply Z.eqb_eq in En, Em. lia.
  - intros E. apply (f_equal String.length) in E.
    rewrite !append_length in E. cbn in E. lia.
  - intros E. apply (f_equal String.length) in E.
    rewrite !append_length in E. cbn in E. lia.
  - intros E. apply append_inj_l in E. apply (append_inj_l "-") in E.
    apply (numberToString_inj 10); lia || auto.
Qed.

(** ** More on the registry *)

(** What the [count] slot of a known signature holds can be added to: it
    is a number, NaN or [undefined], never a BigInt. *)
Lemma readCount_plusOne m entry : ∃ next, plusOne (readCount m entry) = Normal next.
Proof.
  destruct entry as [e | key |]; cbn; [eauto | | eauto].
  destruct (_ || _); cbn; eauto.
Qed.

(** A request for a known signature, in one equation. *)
Lemma generateStableZenId_known x m s entry :
  generateElementSignature x = Some s → lookupIn m s = Some entry →
  ∃ newId, truthy newId = true
    ∧ generateStableZenId x m
      = match entry with
        | OwnSlot e =>
            (Normal (Some newId),
             {| ownEntries := <[s := {| id := id e; count := count e + 1 |}]> (ownEntries m);
                countedBuiltins := countedBuiltins m |})
        | BuiltinSlot key =>
            (Normal (Some newId),
             {| ownEntries := ownEntries m;
                countedBuiltins := {[key]} ∪ countedBuiltins m |})
        | PrototypeCountSlot => (Throw TypeError, m)
        end.
Proof.
  intros Hs Hl. unfold generateStableZenId.
  rewrite Hs, (signature_truthy _ _ Hs), Hl. cbn [negb]. cbv zeta.
  destruct (readCount_plusOne m entry) as [next ->].
  destruct (strictEqualsOne _); eexists; (split; [| reflexivity]); reflexivity.
Qed.

(** A request changes no stored entry but the one of its own signature. *)
Lemma generateStableZenId_other_entries x m s :
  generateElementSignature x ≠ Some s →
  ownEntries (generateStableZenId x m).2 !! s = ownEntries m !! s.
Proof.
  intros Hne.
  destruct (generateElementSignature x) as [s'|] eqn:Hs;
    [| unfold generateStableZenId; now rewrite Hs].
  assert (s' ≠ s) by congruence.
  destruct (lookupIn m s') as [entry|] eqn:Hl.
  - destruct (generateStableZenId_known x m s' entry Hs Hl) as (newId & _ & ->).
    destruct entry; cbn; rewrite ?lookup_insert_ne by assumption; reflexivity.
  - unfold generateStableZenId. rewrite Hs, (signature_truthy _ _ Hs), Hl. cbn.
    now rewrite lookup_insert_ne.
Qed.

Lemma generateStableZenId_wellFormed x m :
  entriesWellFormed m → entriesWellFormed (generateStableZenId x m).2.
Proof.
  intros Hwf.
  destruct (generateElementSignature x) as [s'|] eqn:Hs;
    [| unfold generateStableZenId; now rewrite Hs].
  destruct (lookupIn m s') as [entry|] eqn:Hl.
  1: destruct (generateStableZenId_known x m s' entry Hs Hl) as (newId & _ & ->).
  2: unfold generateStableZenId; rewrite Hs, (signature_truthy _ _ Hs), Hl.
  1: destruct entry as [e | key |]; cbn; try exact Hwf.
  - assert (He : ownEntries m !! s' = Some e).
    { unfold lookupIn in Hl. destruct (ownEntries m !! s') as [e0|]; [congruence|].
      repeat case_match; discriminate. }
    destruct (Hwf s' e He) as [Hid Hc].
    intros s e0. cbn. destruct (decide (s' = s)) as [<- | Hne].
    + rewrite lookup_insert_eq. intros [= <-]. cbn. split; [exact Hid | lia].
    + rewrite lookup_insert_ne by assumption. apply Hwf.
  - intros s e0. cbn. destruct (decide (s' = s)) as [<- | Hne].
    + rewrite lookup_insert_eq. intros [= <-]. cbn. split; [reflexivity | lia].
    + rewrite lookup_insert_ne by assumption. apply Hwf.
Qed.

Lemma generateStableZenId_monotone x m s e :
  ownEntries m !! s = Some e →
  ∃ e', ownEntries (generateStableZenId x m).2 !! s = Some e'
        ∧ id e' = id e ∧ count e <= count e' <= count e + 1.
Proof.
  intros He.
  destruct (decide (generateElementSignature x = Some s)) as [Hs | Hne].
  - assert (Hl : lookupIn m s = Some (OwnSlot e)) by (unfold lookupIn; now rewrite He).
    destruct (generateStableZenId_known x m s _ Hs Hl) as (newId & _ & ->).
    cbn. rewrite lookup_insert_eq.
    eexists. split; [reflexivity|]. cbn. repeat split; lia.
  - rewrite (generateStableZenId_other_entries x m s Hne).
    exists e. repeat split; [exact He | lia | lia].
Qed.

Lemma requestAll_app l1 l2 m :
  requestAll (l1 ++ l2) m
  = ((requestAll l1 m).1 ++ (requestAll l2 (requestAll l1 m).2).1,
     (requestAll l2 (requestAll l1 m).2).2).
Proof.
  revert m. induction l1 as [| x l1 IH]; intros m; cbn [requestAll app].
  - cbn [fst snd app]. now destruct (requestAll l2 m).
  - destruct (generateStableZenId x m) as [r m1]. rewrite IH.
    destruct (requestAll l1 m1) as [rs m2]. cbn [fst snd].
    now destruct (requestAll l2 m2).
Qed.

Lemma requestAll_wellFormed inputs : ∀ m,
  entriesWellFormed m → entriesWellFormed (requestAll inputs m).2.
Proof.
  induction inputs as [| x rest IH]; intros m Hwf; cbn [requestAll]; [exact Hwf|].
  pose proof (generateStableZenId_wellFormed x m Hwf) as H1.
  destruct (generateStableZenId x m) as [r m1]. cbn [snd] in H1.
  specialize (IH m1 H1). destruct (requestAll rest m1) as [rs m2]. exact IH.
Qed.

Lemma occurrences_snoc s inputs x :
  occurrences s (inputs ++ [x])
  = (occurrences s inputs
     + if decide (generateElementSignature x = Some s) then 1 else 0)%nat.
Proof.
  unfold occurrences. rewrite filter_app, length_app. f_equal.
  rewrite filter_cons, filter_nil. now destruct (decide _).
Qed.

Lemma lookupIn_ordinary m s :
  s ∉ objectPrototypeKeys → s ≠ "count" → ownEntries m !! s = None →
  lookupIn m s = None.
Proof.
  intros Hk Hc Ho. unfold lookupIn. rewrite Ho.
  rewrite (bool_decide_eq_false_2 _ Hk), (bool_decide_eq_false_2 _ Hc). reflexivity.
Qed.

Lemma generateStableZenId_counts inputs m x :
  countsRequests inputs m →
  countsRequests (inputs ++ [x]) (generateStableZenId x m).2.
Proof.
  intros Hinv s Hk Hc. rewrite occurrences_snoc.
  destruct (decide (generateElementSignature x = Some s)) as [Hs | Hne].
  - specialize (Hinv s Hk Hc).
    destruct x as [el|]; [| discriminate].
    destruct (decide (occurrences s inputs = 0%nat)) as [H0 | Hn0].
    + rewrite (generateStableZenId_first el s m Hs (lookupIn_ordinary m s Hk Hc Hinv)).
      cbn. rewrite lookup_insert_eq, H0. reflexivity.
    + rewrite (generateStableZenId_next el s m _ Hs Hinv) by (cbn; lia).
      cbn. rewrite lookup_insert_eq.
      destruct (decide _) as [E | _]; [lia|]. do 2 f_equal. lia.
  - rewrite (generateStableZenId_other_entries x m s Hne), Nat.add_0_r.
    now apply Hinv.
Qed.

Lemma requestAll_counts inputs :
  countsRequests inputs (requestAll inputs emptyZenMapping).2.
Proof.
  induction inputs as [| x inputs IH] using rev_ind.
  - intros s _ _. reflexivity.
  - rewrite requestAll_app. cbn [snd requestAll].
    pose proof (generateStableZenId_counts inputs _ x IH) as H.
    destruct (generateStableZenId x (requestAll inputs emptyZenMapping).2) as [r m1].
    exact H.
Qed.

Lemma request_numbered_after before el s :
  generateElementSignature (Some el) = Some s →
  s ∉ objectPrototypeKeys → s ≠ "count" →
  (generateStableZenId (Some el) (requestAll before emptyZenMapping).2).1
  = Normal (Some (numberedId s (Z.of_nat (occurrences s before) + 1))).
Proof.
  intros Hs Hk Hc. pose proof (requestAll_counts before s Hk Hc) as Hinv.
  set (m := (requestAll before emptyZenMapping).2) in *.
  unfold numberedId.
  destruct (decide (occurrences s before = 0%nat)) as [H0 | Hn0].
  - rewrite (generateStableZenId_first el s m Hs (lookupIn_ordinary m s Hk Hc Hinv)).
    rewrite H0. reflexivity.
  - rewrite (generateStableZenId_next el s m _ Hs Hinv) by (cbn; lia).
    cbn [fst count].
    replace (Z.of_nat (occurrences s before) + 1 =? 1) with false
      by (symmetry; apply Z.eqb_neq; lia).
    reflexivity.
Qed.

(** ** Labelling *)

Lemma generateStableZenId_truthy x m z :
  (generateStableZenId x m).1 = Normal (Some z) → truthy z = true.
Proof.
  destruct (generateElementSignature x) as [s|] eqn:Hs;
    [| unfold generateStableZenId; now rewrite Hs].
  destruct (lookupIn m s) as [entry|] eqn:Hl.
  - destruct (generateStableZenId_known x m s entry Hs Hl) as (newId & Ht & ->).
    destruct entry; cbn [fst]; intros [= <-]; exact Ht.
  - unfold generateStableZenId. rewrite Hs, (signature_truthy _ _ Hs), Hl.
    cbn [negb fst]. intros [= <-]. reflexivity.
Qed.

Lemma signature_setAttribute el key value :
  key ≠ "id" → key ≠ "class" → key ≠ "name" → key ≠ "type" →
  generateElementSignature (Some (setAttribute el key value))
  = generateElementSignature (Some el).
Proof.
  intros H1 H2 H3 H4.
  unfold generateElementSignature, elementId, className, getAttribute, setAttribute.
  cbn [tagName attributes textContent].
  rewrite !lookup_insert_ne by assumption. reflexivity.
Qed.

(** X4. Labelling is idempotent: after a call of [labelElement] that
    completes normally, a second call on the resulting node changes neither
    the node nor the registry. *)
Theorem labelElement_idempotent el m el' m' :
  labelElement el m = (Normal tt, el', m') →
  labelElement el' m' = (Normal tt, el', m').
Proof.
  destruct el as [e|]; [| discriminate].
  unfold labelElement at 1.
  destruct (hasAttribute e "data-zenid") eqn:Hh; cbn [negb].
  - intros [= <- <-]. unfold labelElement. now rewrite Hh.
  - destruct (generateStableZenId (Some e) m) as [[[z|] | err] m1] eqn:Hg.
    + pose proof (generateStableZenId_truthy (Some e) m z) as Ht.
      rewrite Hg in Ht. rewrite (Ht eq_refl).
      intros [= <- <-]. unfold labelElement, hasAttribute. cbn [attributes setAttribute].
      rewrite lookup_insert_eq. rewrite bool_decide_eq_true_2 by eauto. reflexivity.
    + intros [= <- <-].
      assert (Hn : generateElementSignature (Some e) = None).
      { destruct (generateElementSignature (Some e)) as [s|] eqn:Hs; [| reflexivity].
        exfalso. destruct (lookupIn m s) as [entry|] eqn:Hl.
        - destruct (generateStableZenId_known (Some e) m s entry Hs Hl) as (newId & _ & E).
          rewrite E in Hg. destruct entry; discriminate.
        - unfold generateStableZenId in Hg.
          rewrite Hs, (signature_truthy _ _ Hs), Hl in Hg. discriminate. }
      assert (Hm : m1 = m).
      { unfold generateStableZenId in Hg. rewrite Hn in Hg. now injection Hg. }
      subst m1. unfold labelElement. now rewrite Hh, Hg.
    + discriminate.
Qed.

(** X5. [labelElement] changes nothing of an element but its data-zenid
    attribute, and never an existing one: tag name, text, every other
    attribute and the signature stay as they are; a node that is not an
    element stays as it is. *)
Theorem labelElement_touches_only_the_label el m :
  (∃ el', (labelElement (ElementNode el) m).1.2 = ElementNode el'
          ∧ tagName el' = tagName el
          ∧ isSVG el' = isSVG el
          ∧ textContent el' = textContent el
          ∧ (∀ key, key ≠ "data-zenid" → attributes el' !! key = attributes el !! key)
          ∧ (∀ z, attributes el !! "data-zenid" = Some z →
                  attributes el' !! "data-zenid" = Some z)
          ∧ generateElementSignature (Some el') = generateElementSignature (Some el))
  ∧ (labelElement OtherNode m).1.2 = OtherNode.
Proof.
  split; [| reflexivity].
  assert (Hsame : ∃ el', ElementNode el = ElementNode el'
          ∧ tagName el' = tagName el
          ∧ isSVG el' = isSVG el
          ∧ textContent el' = textContent el
          ∧ (∀ key, key ≠ "data-zenid" → attributes el' !! key = attributes el !! key)
          ∧ (∀ z, attributes el !! "data-zenid" = Some z →
                  attributes el' !! "data-zenid" = Some z)
          ∧ generateElementSignature (Some el') = generateElementSignature (Some el))
    by (exists el; repeat split; auto).
  unfold labelElement.
  destruct (hasAttribute el "data-zenid") eqn:Hh; cbn [negb fst snd]; [exact Hsame|].
  destruct (generateStableZenId (Some el) m) as [[[z|] | e] m1]; cbn [fst snd];
    try exact Hsame.
  destruct (truthy z); cbn [fst snd]; [| exact Hsame].
  eexists. split; [reflexivity|].
  split; [reflexivity|]. split; [reflexivity|]. split; [reflexivity|].
  split; [intros key Hk; cbn; now rewrite lookup_insert_ne|].
  split.
  - intros z0 Hz. unfold hasAttribute in Hh.
    apply bool_decide_eq_false in Hh. destruct Hh. eauto.
  - apply signature_setAttribute; discriminate.
Qed.

(** ** Creating the user identifier *)

Lemma getOrCreateUserId_created w c uid :
  storedUserId w = None →
  crypto (host w) = CryptoPresent c →
  freshUserId c = Some uid →
  (getOrCreateUserId w).1 = Normal uid
  ∧ agent (getOrCreateUserId w).2 = agent w
  ∧ localStorage (host (getOrCreateUserId w).2)
    = match localStorage (host w) with
      | StorageArea items true => StorageArea (<["USERQUERY_uid" := uid]> items) true
      | other => other
      end
  ∧ console (host (getOrCreateUserId w).2)
    = console (host w)
      ++ match localStorage (host w) with
         | StorageInaccessible =>
             [ Warn "[USERQUERY] localStorage not available. Using in-memory ID.";
               Warn "[USERQUERY] Unable to persist userId to localStorage." ]
         | StorageArea _ false =>
             [ Warn "[USERQUERY] Unable to persist userId to localStorage." ]
         | StorageArea _ true => []
         end.
Proof.
  intros Hs Hc Hf. revert Hs.
  unfold storedUserId, getOrCreateUserId, tryCatch, localStorage_getItem,
    localStorage_setItem, consoleWrite, modify.
  unfold mbind, M_bind, gets, mret, M_ret.
  unfold freshUserId in Hf.
  destruct c as [[uuid|] [fill|]]; cbn in Hf; try discriminate;
    injection Hf as <-;
    destruct (localStorage (host w)) as [| items [|]] eqn:Hl;
    repeat (progress (cbn; rewrite ?Hc, ?Hl));
    try (destruct (items !! "USERQUERY_uid") as [u|]; cbn [truthyOpt];
         [destruct (truthy u); [discriminate|] |];
         repeat (progress (cbn; rewrite ?Hc, ?Hl)));
    intros _; rewrite ?app_nil_r, <- ?app_assoc; auto.
Qed.

(** ** Starting and stopping, in full *)

Lemma coreListeners_NoDup c : NoDup (map registrationOf (coreListeners c)).
Proof.
  cbn. repeat (apply NoDup_cons; split;
    [rewrite ?not_elem_of_cons; repeat split; (discriminate || apply not_elem_of_nil)|]).
  apply NoDup_nil_2.
Qed.

Lemma attach_listeners l w :
  listeners (host (attach l w).2)
  = if bool_decide (registrationOf l ∈ listeners (host w)) then listeners (host w)
    else listeners (host w) ++ [registrationOf l].
Proof.
  unfold attach, addEventListener, modify, mbind, M_bind. cbn.
  now destruct (bool_decide _).
Qed.

Lemma forEach_attach_exact ls : ∀ w,
  NoDup (map registrationOf ls) →
  (∀ l, l ∈ ls → registrationOf l ∉ listeners (host w)) →
  listeners (host (forEach attach ls w).2)
  = listeners (host w) ++ map registrationOf ls.
Proof.
  induction ls as [| l ls IH]; intros w Hnd Hfresh.
  - cbn. now rewrite app_nil_r.
  - cbn [forEach map]. unfold mbind, M_bind.
    pose proof (attach_listeners l w) as Hl.
    assert (Hc : (attach l w).1 = Normal tt) by reflexivity.
    destruct (attach l w) as [c w1]. cbn [fst snd] in *. subst c.
    rewrite bool_decide_eq_false_2 in Hl by (apply Hfresh; left).
    apply NoDup_cons in Hnd as [Hnotin Hnd].
    rewrite IH; [rewrite Hl, <- app_assoc; reflexivity | exact Hnd |].
    intros l' Hl'. rewrite Hl. rewrite elem_of_app, list_elem_of_singleton.
    intros [Hin | Heq].
    + apply (Hfresh l'); [now right | exact Hin].
    + apply Hnotin. rewrite <- Heq. apply list_elem_of_fmap. eauto.
Qed.

Lemma attachCoreEventListeners_exact w :
  listeners (host w) = [] →
  listeners (host (attachCoreEventListeners w).2)
  = map registrationOf (coreListeners (nextClosure (host w))).
Proof.
  intros He. unfold attachCoreEventListeners, mbind, M_bind, gets, modify.
  rewrite forEach_attach_exact.
  - cbn [host updHost set_nextClosure listeners]. now rewrite He.
  - apply coreListeners_NoDup.
  - intros l _. cbn [host updHost set_nextClosure listeners]. rewrite He.
    apply not_elem_of_nil.
Qed.

(** [getOrCreateUserId] reads and writes the host only. *)
Lemma getOrCreateUserId_host_only a a' h :
  (getOrCreateUserId {| agent := a; host := h |}).1
  = (getOrCreateUserId {| agent := a'; host := h |}).1
  ∧ host (getOrCreateUserId {| agent := a; host := h |}).2
    = host (getOrCreateUserId {| agent := a'; host := h |}).2
  ∧ agent (getOrCreateUserId {| agent := a; host := h |}).2 = a.
Proof.
  unfold getOrCreateUserId, tryCatch, localStorage_getItem,
    localStorage_setItem, consoleWrite, modify.
  unfold mbind, M_bind, gets, mret, M_ret, throw. cbn [host agent].
  destruct (localStorage h) as [| items [|]] eqn:Hl;
  destruct (crypto h) as [| | [[uuid|] [fill|]]] eqn:Hc;
    repeat (progress (cbn; rewrite ?Hc, ?Hl)); auto;
    try (destruct (items !! "USERQUERY_uid") as [u|]; cbn [truthyOpt];
         [destruct (truthy u) |];
         repeat (progress (cbn; rewrite ?Hc, ?Hl))); auto 10.
Qed.

Lemma getOrCreateUserId_frame_requests w :
  fetched (host (getOrCreateUserId w).2) = fetched (host w)
  ∧ pending (host (getOrCreateUserId w).2) = pending (host w)
  ∧ crypto (host (getOrCreateUserId w).2) = crypto (host w)
  ∧ fetch (host (getOrCreateUserId w).2) = fetch (host w).
Proof.
  unfold getOrCreateUserId, tryCatch, localStorage_getItem,
    localStorage_setItem, consoleWrite, modify.
  unfold mbind, M_bind, gets, mret, M_ret, throw.
  destruct (localStorage (host w)) as [| items [|]] eqn:Hl;
  destruct (crypto (host w)) as [| | [[uuid|] [fill|]]] eqn:Hc;
    repeat (progress (cbn; rewrite ?Hc, ?Hl)); auto;
    try (destruct (items !! "USERQUERY_uid") as [u|]; cbn [truthyOpt];
         [destruct (truthy u) |];
         repeat (progress (cbn; rewrite ?Hc, ?Hl))); auto 10.
Qed.

Lemma wp_attachCoreEventListeners_full (Q : Completion unit → World → Prop) w :
  (∀ w', agent w' = set_eventListeners
                      (_eventListeners (agent w) ++ coreListeners (nextClosure (host w)))
                      (agent w) →
         host w' = set_listeners (listeners (host w'))
                     (set_nextClosure (S (nextClosure (host w))) (host w)) →
         (∀ l, l ∈ coreListeners (nextClosure (host w)) →
               registrationOf l ∈ listeners (host w')) →
         (∀ r, r ∈ listeners (host w) → r ∈ listeners (host w')) →
         (listeners (host w) = [] →
          listeners (host w') = map registrationOf (coreListeners (nextClosure (host w)))) →
         Q (Normal tt) w') →
  wp attachCoreEventListeners Q w.
Proof.
  intros H. unfold wp.
  pose proof (attachCoreEventListeners_exact w) as Hex.
  destruct (attachCoreEventListeners_spec w) as (Hc & Ha & Hh & Hl).
  assert (Hkeep : ∀ r, r ∈ listeners (host w) →
                       r ∈ listeners (host (attachCoreEventListeners w).2)).
  { unfold attachCoreEventListeners, mbind, M_bind, gets, modify.
    intros r Hr.
    apply (forEach_attach (coreListeners (nextClosure (host w)))
             (updHost (set_nextClosure (S (nextClosure (host w)))) w)).
    exact Hr. }
  rewrite Hc. now apply H.
Qed.

Lemma enrich_ext eventName data w1 w2 :
  _siteId (agent w1) = _siteId (agent w2) →
  _userId (agent w1) = _userId (agent w2) →
  page (host w1) = page (host w2) →
  enrich eventName data w1 = enrich eventName data w2.
Proof.
  intros Hs Hu Hp. unfold enrich, baseContext. now rewrite Hs, Hu, Hp.
Qed.

Lemma init_inactive_full config w uid :
  _initialized (agent w) = false →
  (getOrCreateUserId w).1 = Normal uid →
  wp (init config)
     (λ c w',
        c = Normal tt
        ∧ _initialized (agent w') = true
        ∧ _config (agent w') = mergedConfig config
        ∧ _siteId (agent w') = property (mergedConfig config) "siteId"
        ∧ _userId (agent w') = Some uid
        ∧ _eventListeners (agent w')
          = _eventListeners (agent w) ++ coreListeners (nextClosure (host w))
        ∧ _eventBatch (agent w') = _eventBatch (agent w) ++ pageLoadEvents w w'
        ∧ _batchTimer (agent w') = Some (nextTimerId (host w))
        ∧ __zenMapping (agent w') = __zenMapping (agent w)
        ∧ intervals (host w')
          = intervals (host w)
            ++ [(nextTimerId (host w), property (mergedConfig config) "batchInterval")]
        ∧ nextTimerId (host w') = nextTimerId (host w) + 1
        ∧ nextClosure (host w') = S (nextClosure (host w))
        ∧ fetched (host w') = fetched (host w)
        ∧ pending (host w') = pending (host w)
        ∧ page (host w') = page (host w)
        ∧ fetch (host w') = fetch (host w)
        ∧ (∀ l, l ∈ coreListeners (nextClosure (host w)) →
                registrationOf l ∈ listeners (host w'))
        ∧ (∀ r, r ∈ listeners (host w) → r ∈ listeners (host w'))
        ∧ (listeners (host w) = [] →
           listeners (host w')
           = map registrationOf (coreListeners (nextClosure (host w))))) w.
Proof.
  intros Hi Hu. unfold init.
  wp_step. wp_step. rewrite Hi.
  repeat wp_step.
  match goal with |- wp getOrCreateUserId _ ?x => set (w1 := x) end.
  assert (Hr1 : (getOrCreateUserId w1).1 = Normal uid).
  { rewrite <- Hu. destruct w as [a h]. apply getOrCreateUserId_host_only. }
  destruct (getOrCreateUserId_frame w1) as (Fa & Fl & Fi & Ft & Fc & Fp).
  destruct (getOrCreateUserId_frame_requests w1) as (Ff & Fpe & _ & Ffe).
  unfold wp at 1.
  destruct (getOrCreateUserId w1) as [c w2]. cbn [fst snd] in *. subst c.
  repeat wp_step.
  apply wp_attachCoreEventListeners_full. intros w4 Aa Ah Al Ak Ae. cbn beta iota.
  repeat wp_step.
  (* what is known of [w4] *)
  assert (H4a : agent w4
                = set_eventListeners
                    (_eventListeners (agent w) ++ coreListeners (nextClosure (host w)))
                    (set_userId (Some uid) (agent w1))).
  { rewrite Aa. cbn. rewrite Fa, Fc. reflexivity. }
  assert (H4c : nextClosure (host w4) = S (nextClosure (host w))).
  { rewrite Ah. cbn. now rewrite Fc. }
  assert (H4i : intervals (host w4) = intervals (host w)) by (rewrite Ah; cbn; exact Fi).
  assert (H4t : nextTimerId (host w4) = nextTimerId (host w)) by (rewrite Ah; cbn; exact Ft).
  assert (H4f : fetched (host w4) = fetched (host w)) by (rewrite Ah; cbn; exact Ff).
  assert (H4p : pending (host w4) = pending (host w)) by (rewrite Ah; cbn; exact Fpe).
  assert (H4g : page (host w4) = page (host w)) by (rewrite Ah; cbn; exact Fp).
  assert (H4fe : fetch (host w4) = fetch (host w)) by (rewrite Ah; cbn; exact Ffe).
  assert (H4l : ∀ l, l ∈ coreListeners (nextClosure (host w)) →
                     registrationOf l ∈ listeners (host w4)).
  { intros l Hl. apply Al. cbn. now rewrite Fc. }
  assert (H4k : ∀ r, r ∈ listeners (host w) → r ∈ listeners (host w4)).
  { intros r Hr. apply Ak. cbn. now rewrite Fl. }
  assert (H4e : listeners (host w) = [] →
                listeners (host w4)
                = map registrationOf (coreListeners (nextClosure (host w)))).
  { intros He. rewrite Ae; cbn; rewrite ?Fc, ?Fl; auto. }
  clear Aa Ah Al Ak Ae.
  unfold pageLoadEvents. rewrite <- H4g.
  apply wp_if; intros Hrs.
  - apply wp_trackInternal. repeat wp_step. apply wp_setInterval. cbn beta iota.
    repeat wp_step. rewrite Hrs.
    cbn [agent host updAgent updHost set_batchTimer set_timers set_eventBatch
         _initialized _config _siteId _userId _eventListeners _eventBatch _batchTimer
         __zenMapping intervals nextTimerId nextClosure fetched pending page listeners
         fetch].
    rewrite H4a, H4c, H4i, H4t, H4f, H4p, H4fe.
    cbn [set_eventListeners set_userId _initialized _config _siteId _userId
         _eventListeners _eventBatch _batchTimer __zenMapping].
    subst w1.
    cbn [agent host updAgent set_siteId set_config set_initialized _initialized _config
         _siteId _userId _eventListeners _eventBatch _batchTimer __zenMapping].
    repeat split; auto.
  - wp_step. repeat wp_step. apply wp_setInterval. cbn beta iota.
    repeat wp_step. rewrite Hrs.
    cbn [agent host updAgent updHost set_batchTimer set_timers set_eventBatch
         _initialized _config _siteId _userId _eventListeners _eventBatch _batchTimer
         __zenMapping intervals nextTimerId nextClosure fetched pending page listeners
         fetch].
    rewrite H4a, H4c, H4i, H4t, H4f, H4p, H4fe.
    cbn [set_eventListeners set_userId _initialized _config _siteId _userId
         _eventListeners _eventBatch _batchTimer __zenMapping].
    subst w1.
    cbn [agent host updAgent set_siteId set_config set_initialized _initialized _config
         _siteId _userId _eventListeners _eventBatch _batchTimer __zenMapping].
    rewrite app_nil_r. repeat split; auto.
Qed.

Lemma filter_nothing {A} (P : A → Prop) `{∀ x, Decision (P x)} (l : list A) :
  (∀ x, x ∈ l → ¬ P x) → filter P l = [].
Proof.
  intros HP. induction l as [| x l IH]; [reflexivity|].
  rewrite filter_cons_False by (apply HP; left).
  apply IH. intros y Hy. apply HP. now right.
Qed.

Lemma init_inactive_throw config w e :
  _initialized (agent w) = false →
  (getOrCreateUserId w).1 = Throw e →
  wp (init config)
     (λ c w',
        c = Throw e
        ∧ _initialized (agent w') = true
        ∧ _eventListeners (agent w') = _eventListeners (agent w)
        ∧ _batchTimer (agent w') = _batchTimer (agent w)
        ∧ _eventBatch (agent w') = _eventBatch (agent w)
        ∧ listeners (host w') = listeners (host w)
        ∧ intervals (host w') = intervals (host w)
        ∧ nextTimerId (host w') = nextTimerId (host w)
        ∧ fetched (host w') = fetched (host w)
        ∧ _siteId (agent w') = property (mergedConfig config) "siteId"
        ∧ fetch (host w') = fetch (host w)) w.
Proof.
  intros Hi Hu. unfold init.
  wp_step. wp_step. rewrite Hi.
  repeat wp_step.
  match goal with |- wp getOrCreateUserId _ ?x => set (w1 := x) end.
  assert (Hr1 : (getOrCreateUserId w1).1 = Throw e).
  { rewrite <- Hu. destruct w as [a h]. apply getOrCreateUserId_host_only. }
  destruct (getOrCreateUserId_frame w1) as (Fa & Fl & Fi & Ft & Fc & Fp).
  destruct (getOrCreateUserId_frame_requests w1) as (Ff & Fpe & _ & Ffe).
  unfold wp at 1.
  destruct (getOrCreateUserId w1) as [c w2]. cbn [fst snd] in *. subst c.
  rewrite Fa. repeat split; auto.
Qed.

(** ** What can be serialised *)

Lemma serialisableEvent_lookup (ev : TrackedEvent) :
  serialisableEvent ev = true ↔ ∀ k v, ev !! k = Some v → serialisable v = true.
Proof.
  unfold serialisableEvent. rewrite forallb_forall. split.
  - intros H k v Hkv. apply (H (k, v)). apply list_elem_of_In, elem_of_map_to_list, Hkv.
  - intros H [k v] Hin. apply list_elem_of_In, elem_of_map_to_list in Hin. exact (H k v Hin).
Qed.

Lemma baseContext_serialisable eventName w :
  serialisable (_siteId (agent w)) = true →
  serialisableEvent (baseContext eventName w) = true.
Proof.
  intros Hs. apply serialisableEvent_lookup. intros k v Hkv.
  unfold baseContext in Hkv. apply elem_of_list_to_map_2 in Hkv.
  repeat (apply elem_of_cons in Hkv as [[= _ ->] | Hkv];
          [try reflexivity; try exact Hs; now destruct (_userId (agent w)) |]).
  inversion Hkv.
Qed.

(** An event made of serialisable data in a world with a serialisable site
    identifier can be serialised. *)
Lemma enrich_serialisable eventName data w :
  serialisable (_siteId (agent w)) = true → serialisableEvent data = true →
  serialisableEvent (enrich eventName data w) = true.
Proof.
  intros Hs Hd. apply serialisableEvent_lookup. intros k v. rewrite enrich_lookup.
  destruct (data !! k) as [d|] eqn:E.
  - intros [= <-]. exact (proj1 (serialisableEvent_lookup data) Hd k d E).
  - exact (proj1 (serialisableEvent_lookup _) (baseContext_serialisable eventName w Hs) k v).
Qed.

Lemma sendable_flushError w : sendable w → flushError w = None.
Proof.
  intros (Hf & Hs & Hb).
  assert (Hall : forallb serialisableEvent (_eventBatch (agent w)) = true).
  { apply forallb_forall. intros ev Hin. rewrite Forall_forall in Hb.
    apply Hb, list_elem_of_In, Hin. }
  unfold flushError, stringifies, requestOf. cbn [body payloadSiteId events].
  rewrite Hf, Hs, Hall. now destruct (_eventBatch (agent w)).
Qed.

Lemma perform_sendable a w :
  sendable w → serialisableAction a → sendable (perform a w).2.
Proof.
  intros (Hf & Hs & Hb) Ha.
  assert (Hsame : ∀ w', fetch (host w') = fetch (host w) →
            _siteId (agent w') = _siteId (agent w) →
            _eventBatch (agent w') = _eventBatch (agent w) →
            sendable w').
  { intros w' E1 E2 E3. unfold sendable. rewrite E1, E2, E3. auto. }
  destruct a as [config | | eventName data | t | i outcome]; cbn [perform].
  - (* init *)
    destruct (_initialized (agent w)) eqn:Hi.
    { rewrite (init_when_active w config Hi). now apply Hsame. }
    destruct (getOrCreateUserId w).1 as [uid | e] eqn:Hu.
    + pose proof (init_inactive_full config w uid Hi Hu) as H. unfold wp in H.
      destruct H as (_ & _ & _ & Hsite & _ & _ & Hbatch & _ & _ & _ & _ & _ & _ & _ & _
                     & Hfetch & _).
      assert (Hs' : serialisable (_siteId (agent (init config w).2)) = true)
        by (rewrite Hsite; exact Ha).
      split; [now rewrite Hfetch|]. split; [exact Hs'|].
      rewrite Hbatch. apply Forall_app. split; [exact Hb|].
      unfold pageLoadEvents. destruct (bool_decide _); [| constructor].
      repeat constructor. apply enrich_serialisable; [exact Hs'|].
      apply serialisableEvent_lookup. intros k v Hkv.
      apply lookup_singleton_Some in Hkv as [_ <-]. reflexivity.
    + pose proof (init_inactive_throw config w e Hi Hu) as H. unfold wp in H.
      destruct H as (_ & _ & _ & _ & Hbatch & _ & _ & _ & _ & Hsite & Hfetch).
      split; [now rewrite Hfetch|]. split; [rewrite Hsite; exact Ha|].
      now rewrite Hbatch.
  - (* stop *)
    destruct (_initialized (agent w)) eqn:Hi.
    2:{ rewrite (stop_when_inactive w Hi). now apply Hsame. }
    pose proof (stop_active_full w Hi) as H. unfold wp in H.
    destruct H as (_ & _ & _ & _ & Hbatch & Hsite & _ & _ & _ & _ & _ & _ & _ & _ & _
                   & _ & _ & Hfetch & _).
    now apply Hsame.
  - (* trackCustom *)
    destruct (_initialized (agent w)) eqn:Hi.
    2:{ rewrite (trackCustom_when_inactive w eventName data Hi). now apply Hsame. }
    unfold trackCustom, mbind, M_bind, gets. rewrite Hi. cbn [negb].
    rewrite trackInternal_appends. cbn [snd].
    split; [exact Hf|]. split; [exact Hs|]. cbn.
    apply Forall_app. split; [exact Hb|].
    repeat constructor. now apply enrich_serialisable.
  - (* a timer fires *)
    unfold timerFires. destruct (bool_decide _); [| now apply Hsame].
    rewrite flushEventBatch_exact. now apply Hsame.
  - (* a request settles *)
    unfold settle. destruct (pending (host w) !! i); [| now apply Hsame].
    destruct outcome; (split; [exact Hf|]; split; [exact Hs | constructor]).
Qed.

(** ** Agreement between the agent and the host, step by step *)

Lemma perform_consistent a w :
  consistent w → sendable w → consistent (perform a w).2.
Proof.
  intros (Hn & Hl & Ht & Hp & Hoff) Hsend.
  pose proof (sendable_flushError w Hsend) as Hfe.
  assert (Hsame : ∀ w', nextTimerId (host w') = nextTimerId (host w) →
            listeners (host w') = listeners (host w) →
            intervals (host w') = intervals (host w) →
            _eventListeners (agent w') = _eventListeners (agent w) →
            _batchTimer (agent w') = _batchTimer (agent w) →
            _initialized (agent w') = _initialized (agent w) →
            consistent w').
  { intros w' E1 E2 E3 E4 E5 E6. unfold consistent.
    rewrite E1, E2, E3, E4, E5, E6. auto 6. }
  destruct a as [config | | eventName data | t | i outcome]; cbn [perform].
  - (* init *)
    destruct (_initialized (agent w)) eqn:Hi.
    { rewrite (init_when_active w config Hi). now apply Hsame. }
    destruct (Hoff eq_refl) as [Hnl Hnt].
    assert (Hnol : listeners (host w) = []) by now rewrite Hl, Hnl.
    assert (Hnoi : intervals (host w) = []).
    { rewrite Hnt in Ht. now apply fmap_nil_inv in Ht. }
    destruct (getOrCreateUserId w).1 as [uid | e] eqn:Hu.
    + pose proof (init_inactive_full config w uid Hi Hu) as H. unfold wp in H.
      destruct H as (_ & Ha & _ & _ & _ & Hel & _ & Hbt & _ & Hiv & Hnt' & _ & _ & _ & _
                     & _ & _ & _ & Hex).
      split; [lia|]. split; [rewrite Hex, Hel, Hnl by exact Hnol; reflexivity|].
      split; [rewrite Hiv, Hbt, Hnoi; reflexivity|].
      split; [intros t; rewrite Hbt; intros [= <-]; exact Hn|].
      rewrite Ha. discriminate.
    + pose proof (init_inactive_throw config w e Hi Hu) as H. unfold wp in H.
      destruct H as (_ & Ha & Hel & Hbt & _ & Hls & Hiv & Hnt' & _).
      split; [lia|]. split; [now rewrite Hls, Hel|].
      split; [now rewrite Hiv, Hbt|].
      split; [intros t; rewrite Hbt; apply Hp|].
      rewrite Ha. discriminate.
  - (* stop *)
    destruct (_initialized (agent w)) eqn:Hi.
    2:{ rewrite (stop_when_inactive w Hi). now apply Hsame. }
    pose proof (stop_active_full w Hi) as H. unfold wp in H.
    destruct H as (_ & Ha & Hel & Hbt & _ & _ & _ & _ & _ & Hls & Hiv & Hnt' & _).
    unfold batchTimerAfterStop in Hbt. unfold intervalsAfterStop in Hiv.
    rewrite Hfe in Hbt, Hiv.
    assert (Hbt' : _batchTimer (agent (stop w).2) = None).
    { rewrite Hbt. destruct (_batchTimer (agent w)) as [t|] eqn:E; [| reflexivity].
      specialize (Hp t eq_refl).
      replace (t =? 0) with false by (symmetry; apply Z.eqb_neq; lia). reflexivity. }
    split; [lia|].
    split.
    { rewrite Hls, Hel. unfold listenersAfterStop. rewrite Hl.
      apply filter_nothing. intros r Hr Hn'. now apply Hn'. }
    split.
    { rewrite Hiv, Hbt'.
      destruct (_batchTimer (agent w)) as [t|] eqn:E; [| exact Ht].
      specialize (Hp t eq_refl).
      replace (t =? 0) with false by (symmetry; apply Z.eqb_neq; lia).
      rewrite filter_nothing; [reflexivity|].
      intros [t' p] Hin Hne. cbn in Hne.
      assert (Hin' : t' ∈ (intervals (host w)).*1)
        by (apply list_elem_of_fmap; exists (t', p); auto).
      rewrite Ht in Hin'. apply list_elem_of_singleton in Hin'. congruence. }
    split; [intros t; rewrite Hbt'; discriminate|].
    intros _. split; [exact Hel | exact Hbt'].
  - (* trackCustom *)
    destruct (_initialized (agent w)) eqn:Hi.
    2:{ rewrite (trackCustom_when_inactive w eventName data Hi). now apply Hsame. }
    unfold trackCustom, mbind, M_bind, gets. rewrite Hi. cbn [negb].
    rewrite trackInternal_appends. now apply Hsame.
  - (* a timer fires *)
    unfold timerFires. destruct (bool_decide _); [| now apply Hsame].
    rewrite flushEventBatch_exact. now apply Hsame.
  - (* a request settles *)
    unfold settle. destruct (pending (host w) !! i); [| now apply Hsame].
    destruct outcome; now apply Hsame.
Qed.

Lemma run_sendable actions : ∀ w,
  sendable w → Forall serialisableAction actions → sendable (run actions w).
Proof.
  induction actions as [| a rest IH]; intros w Hs Ha; cbn [run]; [auto|].
  apply Forall_cons in Ha as [Ha Hrest].
  apply IH; [now apply perform_sendable | exact Hrest].
Qed.

Lemma run_consistent actions : ∀ w,
  consistent w → sendable w → Forall serialisableAction actions →
  consistent (run actions w).
Proof.
  induction actions as [| a rest IH]; intros w Hw Hs Ha; cbn [run]; [auto|].
  apply Forall_cons in Ha as [Ha Hrest].
  apply IH; [now apply perform_consistent | now apply perform_sendable | exact Hrest].
Qed.

Lemma loaded_consistent h : pristine h → consistent (loaded h).
Proof.
  intros (Hl & Hi & Hn). repeat split; cbn; auto; try discriminate.
  now rewrite Hi.
Qed.

Lemma loaded_sendable h : fetch h = FetchFunction → sendable (loaded h).
Proof. intros Hf. repeat split; [exact Hf | constructor]. Qed.

(** X10. [stop] on an initialised agent removes from the DOM exactly the
    listeners recorded in [_eventListeners], whether or not the flush
    throws, and ends as the flush ends.  When the flush does not throw,
    [stop] clears exactly the timer [_batchTimer], and every other timer of
    the page stays.  When the flush throws, [stop] is left before
    [clearInterval]: the timer keeps running and [_batchTimer] stays set,
    although the agent is no longer initialised.  The identity registry, the
    user identifier and storage are left alone. *)
Theorem stop_removes_own_listeners_only w :
  _initialized (agent w) = true →
  (stop w).1 = completionOf (flushError w)
  ∧ _initialized (agent (stop w).2) = false
  ∧ _eventListeners (agent (stop w).2) = []
  ∧ (∀ r, r ∈ listeners (host (stop w).2)
          ↔ r ∈ listeners (host w)
            ∧ r ∉ map registrationOf (_eventListeners (agent w)))
  ∧ (flushError w = None →
     (_batchTimer (agent w) = None →
      intervals (host (stop w).2) = intervals (host w))
     ∧ (∀ t, _batchTimer (agent w) = Some t → t ≠ 0 →
             _batchTimer (agent (stop w).2) = None
             ∧ ∀ q, q ∈ intervals (host (stop w).2) ↔ q ∈ intervals (host w) ∧ q.1 ≠ t))
  ∧ (is_Some (flushError w) →
     _batchTimer (agent (stop w).2) = _batchTimer (agent w)
     ∧ intervals (host (stop w).2) = intervals (host w)
     ∧ fetched (host (stop w).2) = fetched (host w))
  ∧ __zenMapping (agent (stop w).2) = __zenMapping (agent w)
  ∧ _userId (agent (stop w).2) = _userId (agent w)
  ∧ localStorage (host (stop w).2) = localStorage (host w).
Proof.
  intros Hi. pose proof (stop_active_full w Hi) as H. unfold wp in H.
  destruct H as (Hc & Hin & Hel & Hbt & _ & _ & Hu & _ & Hz & Hls & Hiv & _ & _ & Hf & _
                 & Hst & _).
  unfold batchTimerAfterStop in Hbt. unfold intervalsAfterStop in Hiv.
  split; [exact Hc|]. split; [exact Hin|]. split; [exact Hel|].
  split.
  { intros r. rewrite Hls. unfold listenersAfterStop. rewrite list_elem_of_filter. tauto. }
  split.
  { intros He. rewrite He in Hbt, Hiv. split.
    - intros Hn. rewrite Hiv. now rewrite Hn.
    - intros t Ht Hne. rewrite Hbt, Hiv, Ht.
      replace (t =? 0) with false by (symmetry; apply Z.eqb_neq; lia).
      split; [reflexivity|]. intros q. rewrite list_elem_of_filter. tauto. }
  split.
  { intros [e He]. rewrite He in Hbt, Hiv.
    split; [exact Hbt|]. split; [exact Hiv|].
    rewrite Hf, (flushRequests_throws w e He). apply app_nil_r. }
  auto.
Qed.

(** X11. [stop] on an initialised agent sends the pending batch in exactly
    one request when the flush can send, sends nothing when the batch is
    empty, throws and sends nothing when the flush cannot send, and never
    itself empties the batch. *)
Theorem stop_flushes_once w :
  _initialized (agent w) = true →
  (_eventBatch (agent w) = [] → fetched (host (stop w).2) = fetched (host w))
  ∧ (_eventBatch (agent w) ≠ [] → flushError w = None →
     (stop w).1 = Normal tt
     ∧ fetched (host (stop w).2) = fetched (host w) ++ [requestOf w]
     ∧ pending (host (stop w).2) = pending (host w) ++ [requestOf w])
  ∧ (∀ e, flushError w = Some e →
     (stop w).1 = Throw e
     ∧ fetched (host (stop w).2) = fetched (host w)
     ∧ pending (host (stop w).2) = pending (host w))
  ∧ _eventBatch (agent (stop w).2) = _eventBatch (agent w).
Proof.
  intros Hi. pose proof (stop_active_full w Hi) as H. unfold wp in H.
  destruct H as (Hc & _ & _ & _ & Hb & _ & _ & _ & _ & _ & _ & _ & _ & Hf & Hp & _).
  split.
  { intros He. rewrite Hf. unfold flushRequests. rewrite He. apply app_nil_r. }
  split.
  { intros Hne He. rewrite Hc, Hf, Hp, He. unfold flushRequests. rewrite He.
    destruct (_eventBatch (agent w)); [congruence|]. auto. }
  split; [| exact Hb].
  intros e He. rewrite Hc, Hf, Hp, He, (flushRequests_throws w e He), !app_nil_r. auto.
Qed.

(** X12. A second flush before the first request has settled sends the
    same events again: two calls of [flushEventBatch] on a non-empty batch
    that can be sent issue two identical requests and leave the batch as it
    is. *)
Theorem overlapping_flushes_resend w :
  _eventBatch (agent w) ≠ [] → flushError w = None →
  fetched (host (flushEventBatch (flushEventBatch w).2).2)
  = fetched (host w) ++ [requestOf w; requestOf w]
  ∧ _eventBatch (agent (flushEventBatch (flushEventBatch w).2).2) = _eventBatch (agent w).
Proof.
  intros Hne He. rewrite (flushEventBatch_sends w Hne He). cbn [snd].
  rewrite flushEventBatch_sends; [| exact Hne | exact He].
  cbn. rewrite <- app_assoc. split; reflexivity.
Qed.

(** X13. The unload handler always records a pageUnload event, and then
    ends as the flush of the batch with that event ends: when that flush can
    send, and so whenever the world was sendable, it issues one request with
    the whole batch, that event last, and the user and site identifiers;
    when it cannot, the handler throws and nothing is sent. *)
Theorem unloadHandler_records_then_sends w :
  _eventBatch (agent (unloadHandler w).2)
  = _eventBatch (agent w) ++ [enrich "pageUnload" ∅ w]
  ∧ (unloadHandler w).1 = completionOf (flushError (trackInternal "pageUnload" ∅ w).2)
  ∧ (flushError (trackInternal "pageUnload" ∅ w).2 = None →
     fetched (host (unloadHandler w).2)
     = fetched (host w)
       ++ [ {| url := ENDPOINT;
               body := {| userId := _userId (agent w);
                          payloadSiteId := _siteId (agent w);
                          events := _eventBatch (agent w) ++ [enrich "pageUnload" ∅ w] |} |} ])
  ∧ (is_Some (flushError (trackInternal "pageUnload" ∅ w).2) →
     fetched (host (unloadHandler w).2) = fetched (host w))
  ∧ (sendable w → flushError (trackInternal "pageUnload" ∅ w).2 = None)
  ∧ enrich "pageUnload" ∅ w !! "eventName" = Some (VStr "pageUnload").
Proof.
  unfold unloadHandler, mbind, M_bind. rewrite trackInternal_appends. cbn [snd].
  set (w1 := updAgent _ w).
  assert (Hne : _eventBatch (agent w1) ≠ []).
  { cbn. intros H. apply app_eq_nil in H as [_ H]. discriminate. }
  split; [now rewrite flushEventBatch_agent|].
  split; [apply flushEventBatch_completion|].
  split; [intros He; now rewrite (flushEventBatch_sends w1 Hne He)|].
  split; [intros [e He]; now rewrite (flushEventBatch_throws w1 e He)|].
  split; [| reflexivity].
  intros (Hf & Hs & Hb). apply sendable_flushError.
  split; [exact Hf|]. split; [exact Hs|]. cbn.
  apply Forall_app. split; [exact Hb|]. repeat constructor.
  apply enrich_serialisable; [exact Hs | reflexivity].
Qed.

(** ** Clicks and the order of events *)

(** X14. A click that is handled normally has hit an element: the handler
    labels it as [labelElement] does and records exactly one event, named
    click, whose [dataZenId] is the data-zenid attribute of the target after
    labelling and which carries the button, the coordinates, the identity
    fields and the [className] of the target (null when that is the empty
    string); a target that already has a label keeps it and the registry is
    untouched. *)
Theorem clickHandler_records_the_label target button x y w target' :
  (clickHandler target button x y w).1 = Normal target' →
  ∃ el el',
    target = ElementNode el ∧ target' = ElementNode el'
    ∧ labelElement target (__zenMapping (agent w))
      = (Normal tt, target', __zenMapping (agent (clickHandler target button x y w).2))
    ∧ (∃ ev, _eventBatch (agent (clickHandler target button x y w).2)
             = _eventBatch (agent w) ++ [ev]
             ∧ ev !! "eventName" = Some (VStr "click")
             ∧ ev !! "dataZenId" = Some (ofOptString (attributes el' !! "data-zenid"))
             ∧ ev !! "classes"
               = Some (if truthyValue (className el') then className el' else VNull)
             ∧ ev !! "button" = Some (VNum button)
             ∧ ev !! "clientX" = Some (VNum x)
             ∧ ev !! "clientY" = Some (VNum y)
             ∧ ev !! "userId" = Some (ofOptString (_userId (agent w)))
             ∧ ev !! "siteId" = Some (_siteId (agent w)))
    ∧ (is_Some (attributes el !! "data-zenid") →
       el' = el
       ∧ __zenMapping (agent (clickHandler target button x y w).2) = __zenMapping (agent w)).
Proof.
  destruct target as [el|]; [| discriminate].
  unfold clickHandler.
  destruct (labelElement (ElementNode el) (__zenMapping (agent w))) as [[c n1] m1] eqn:Hl.
  destruct c as [[] | e]; [| discriminate].
  destruct n1 as [el1|]; [| discriminate].
  rewrite trackInternal_appends. cbn [fst snd]. intros [= <-].
  exists el, el1. split; [reflexivity|]. split; [reflexivity|].
  split; [reflexivity|].
  split.
  - eexists. split; [reflexivity|].
    rewrite !enrich_lookup. repeat split.
  - intros Hs. unfold labelElement, hasAttribute in Hl.
    rewrite bool_decide_eq_true_2 in Hl by exact Hs. cbn [negb] in Hl.
    injection Hl as <- <-. split; reflexivity.
Qed.

Lemma run_app l1 l2 w : run (l1 ++ l2) w = run l2 (run l1 w).
Proof. revert w. induction l1 as [| a l1 IH]; intros w; cbn; auto. Qed.

Lemma trackCustom_active w eventName data :
  _initialized (agent w) = true →
  trackCustom eventName data w = trackInternal eventName data w.
Proof. intros Hi. unfold trackCustom, mbind, M_bind, gets. now rewrite Hi. Qed.

Lemma tracked_batch evs : ∀ w,
  _initialized (agent w) = true →
  agent (run (map (λ p, CallTrackCustom p.1 p.2) evs) w)
  = set_eventBatch (_eventBatch (agent w) ++ map (λ p, enrich p.1 p.2 w) evs) (agent w)
  ∧ host (run (map (λ p, CallTrackCustom p.1 p.2) evs) w) = host w.
Proof.
  induction evs as [| [n d] evs IH]; intros w Hi.
  - cbn. rewrite app_nil_r. split; [now destruct (agent w) | reflexivity].
  - cbn [map run perform fst snd]. rewrite (trackCustom_active w n d Hi).
    rewrite trackInternal_appends. cbn [snd].
    set (w1 := updAgent _ w).
    destruct (IH w1 Hi) as [Ha Hh]. rewrite Ha, Hh. split; [| reflexivity].
    cbn. rewrite <- app_assoc. reflexivity.
Qed.

(** ** The shape of a hash, and visibility changes *)

Lemma digitChar_base36 d : 0 <= d < 36 → isBase36Digit (digitChar d) = true.
Proof.
  intros Hd.
  assert (Hall : forallb (λ n, isBase36Digit (digitChar (Z.of_nat n))) (seq 0 36) = true)
    by (vm_compute; reflexivity).
  rewrite forallb_forall in Hall.
  specialize (Hall (Z.to_nat d)). rewrite Z2Nat.id in Hall by lia.
  apply Hall, in_seq. lia.
Qed.

Lemma digitsFrom_chars radix : 2 <= radix <= 36 →
  ∀ fuel n acc, 0 <= n → allChars isBase36Digit acc = true →
  allChars isBase36Digit (digitsFrom fuel radix n acc) = true.
Proof.
  intros Hr. induction fuel as [| fuel IH]; intros n acc Hn Hacc; cbn [digitsFrom].
  - exact Hacc.
  - pose proof (Z.mod_pos_bound n radix ltac:(lia)) as Hm.
    assert (Hacc' : allChars isBase36Digit (String (digitChar (n mod radix)) acc) = true).
    { cbn [allChars]. rewrite digitChar_base36 by lia. exact Hacc. }
    destruct (n / radix =? 0); [exact Hacc'|].
    apply IH; [apply Z.div_pos; lia | exact Hacc'].
Qed.

Lemma digitsFrom_length radix : 2 <= radix →
  ∀ fuel n acc k, 0 <= n < radix ^ Z.of_nat k →
  (String.length acc + (if fuel is O then 0 else 1)
   <= String.length (digitsFrom fuel radix n acc)
   <= String.length acc + Nat.max 1 k)%nat.
Proof.
  intros Hr. induction fuel as [| fuel IH]; intros n acc k Hn; cbn [digitsFrom].
  - lia.
  - destruct (n / radix =? 0) eqn:E.
    + cbn [String.length]. lia.
    + apply Z.eqb_neq in E.
      destruct k as [| k].
      { cbn in Hn. assert (n = 0) by lia. subst n. rewrite Z.div_0_l in E by lia. lia. }
      assert (Hq : 0 <= n / radix < radix ^ Z.of_nat k).
      { rewrite Nat2Z.inj_succ, Z.pow_succ_r in Hn by lia.
        split; [apply Z.div_pos; lia|].
        apply Z.div_lt_upper_bound; [lia|]. lia. }
      specialize (IH (n / radix) (String (digitChar (n mod radix)) acc) k Hq).
      cbn [String.length] in IH.
      assert (k ≠ 0%nat).
      { intros ->. cbn in Hq. lia. }
      destruct fuel; lia.
Qed.

(** X18. Every hash is a string of one to seven characters, each a digit
    or a lower-case letter. *)
Theorem fnv32a_is_short_base36 str :
  (1 <= String.length (fnv32a str) <= 7)%nat
  ∧ allChars isBase36Digit (fnv32a str) = true.
Proof.
  unfold fnv32a, numberToString.
  pose proof (toUint32_range (fnvLoop str fnvSeed)) as Hrange.
  fold (fnv32aValue str) in *.
  split.
  - pose proof (digitsFrom_length 36 ltac:(lia)
                  (S (Z.to_nat (Z.log2 (fnv32aValue str)))) (fnv32aValue str) "" 7) as H.
    cbn [String.length] in H. apply H.
    change (36 ^ Z.of_nat 7) with 78364164096. change (2 ^ 32) with 4294967296 in Hrange.
    lia.
  - apply digitsFrom_chars; [lia | lia | reflexivity].
Qed.

Lemma last_cons_default {A} (x d : A) l : List.last (x :: l) d = List.last l x.
Proof.
  revert x d. induction l as [| y l IH]; intros x d; [reflexivity|].
  change (List.last (x :: y :: l) d) with (List.last (y :: l) d).
  now rewrite !IH.
Qed.

Lemma visibilityChanges_spec states : ∀ previous w,
  visibilityChanges states previous w
  = (Normal (List.last states previous),
     updAgent (set_eventBatch
       (_eventBatch (agent w)
        ++ map (λ ft, enrich "visibilityChange"
                        (<[ "to" := VStr ft.2 ]> {[ "from" := VStr ft.1 ]}) w)
               (transitions previous states))) w).
Proof.
  induction states as [| s rest IH]; intros previous w.
  - cbn [visibilityChanges transitions map List.last]. unfold mret, M_ret.
    rewrite app_nil_r. destruct w as [[] h]. reflexivity.
  - cbn [visibilityChanges transitions map]. unfold mbind, M_bind, visibilityHandler.
    unfold mbind, M_bind. rewrite trackInternal_appends.
    unfold mret, M_ret. rewrite IH.
    f_equal.
    + now rewrite last_cons_default.
    + cbn. rewrite <- app_assoc. reflexivity.
Qed.

(** ** More on the user identifier *)

Lemma cryptoUsable_fresh w :
  cryptoUsable w ↔ ∃ c uid, crypto (host w) = CryptoPresent c ∧ freshUserId c = Some uid.
Proof.
  unfold cryptoUsable, freshUserId. split.
  - intros (c & Hc & Hm). exists c.
    destruct c as [[uuid|] [fill|]]; cbn in *;
      try (eexists; split; [exact Hc | reflexivity]).
    exfalso. destruct Hm as [Hm | Hm]; now apply is_Some_None in Hm.
  - intros (c & uid & Hc & Hf). exists c. split; [exact Hc|].
    destruct c as [[uuid|] [fill|]]; cbn in *; eauto; discriminate.
Qed.

Lemma cryptoUsable_dec w : cryptoUsable w ∨ ¬ cryptoUsable w.
Proof.
  unfold cryptoUsable.
  destruct (crypto (host w)) as [| | [[uuid|] [fill|]]];
    try (right; intros (c & [=] & _); fail);
    try (left; eexists; split; [reflexivity | cbn; eauto]; fail).
  right. intros (c & [= <-] & [[? H] | [? H]]); discriminate.
Qed.

Lemma getOrCreateUserId_no_source w :
  storedUserId w = None → ¬ cryptoUsable w →
  ∃ e, (getOrCreateUserId w).1 = Throw e.
Proof.
  intros Hs Hn. revert Hs.
  unfold storedUserId, getOrCreateUserId, tryCatch, localStorage_getItem,
    localStorage_setItem, consoleWrite, modify.
  unfold mbind, M_bind, gets, mret, M_ret, throw.
  destruct (crypto (host w)) as [| | [[uuid|] [fill|]]] eqn:Hc;
    try (exfalso; apply Hn; eexists; split; [exact Hc | cbn; eauto]; fail);
    destruct (localStorage (host w)) as [| items [|]] eqn:Hl;
    repeat (progress (cbn; rewrite ?Hc, ?Hl));
    try (destruct (items !! "USERQUERY_uid") as [u|]; cbn [truthyOpt];
         [destruct (truthy u); [discriminate|] |];
         repeat (progress (cbn; rewrite ?Hc, ?Hl)));
    eauto.
Qed.

(** X6. [getOrCreateUserId] never touches the module-level variables; it
    throws exactly when storage yields no non-empty identifier and [crypto]
    is not an object with [randomUUID] or [getRandomValues]; a stored
    non-empty identifier is returned without any effect. *)
Theorem getOrCreateUserId_throws_exactly_without_source w :
  agent (getOrCreateUserId w).2 = agent w
  ∧ ((∃ e, (getOrCreateUserId w).1 = Throw e)
     ↔ storedUserId w = None ∧ ¬ cryptoUsable w)
  ∧ (∀ v, storedUserId w = Some v → getOrCreateUserId w = (Normal v, w)).
Proof.
  split; [apply getOrCreateUserId_frame|].
  split; [| apply getOrCreateUserId_stored].
  split.
  - intros [e He].
    destruct (storedUserId w) as [v|] eqn:Hs.
    { rewrite (getOrCreateUserId_stored w v Hs) in He. discriminate. }
    split; [reflexivity|]. intros Hu.
    destruct (getOrCreateUserId_storage_failures_tolerated w Hu) as (uid & Hn & _).
    congruence.
  - intros [Hs Hn]. now apply getOrCreateUserId_no_source.
Qed.

(** X7. With writable storage the identifier is persisted: after a call
    that returns a non-empty identifier, storage hands that identifier out,
    and a second call returns it again and changes nothing. *)
Theorem getOrCreateUserId_second_call_returns_same items w uid :
  localStorage (host w) = StorageArea items true →
  (getOrCreateUserId w).1 = Normal uid →
  uid ≠ "" →
  storedUserId (getOrCreateUserId w).2 = Some uid
  ∧ getOrCreateUserId (getOrCreateUserId w).2 = (Normal uid, (getOrCreateUserId w).2).
Proof.
  intros Hl Hr Hne.
  assert (Hstored : storedUserId (getOrCreateUserId w).2 = Some uid).
  { destruct (storedUserId w) as [v|] eqn:Hs.
    - rewrite (getOrCreateUserId_stored w v Hs) in *. cbn in *. congruence.
    - destruct (cryptoUsable_dec w) as [Hu | Hn].
      + apply cryptoUsable_fresh in Hu as (c & uid' & Hc & Hf).
        destruct (getOrCreateUserId_created w c uid' Hs Hc Hf) as (Hr' & _ & Hst & _).
        assert (uid' = uid) by congruence. subst uid'.
        unfold storedUserId. rewrite Hst, Hl. rewrite lookup_insert_eq.
        destruct uid; [congruence | reflexivity].
      + destruct (getOrCreateUserId_no_source w Hs Hn) as [e He]. congruence. }
  split; [exact Hstored|]. now apply getOrCreateUserId_stored.
Qed.

(** ** Recorded events and a successful start *)

(** X15. On an initialised agent a sequence of [trackCustom] calls appends
    the enriched events to the batch in call order.  A following [stop]
    whose flush can send, and so every [stop] after serialisable events in a
    sendable world, delivers the old batch followed by these events, in that
    order, in addition to what was delivered before; a [stop] whose flush
    throws delivers nothing. *)
Theorem tracked_events_sent_in_order_by_stop w evs :
  _initialized (agent w) = true →
  _eventBatch (agent (run (map (λ p, CallTrackCustom p.1 p.2) evs) w))
  = _eventBatch (agent w) ++ map (λ p, enrich p.1 p.2 w) evs
  ∧ (flushError (run (map (λ p, CallTrackCustom p.1 p.2) evs) w) = None →
     deliveredEvents (run (map (λ p, CallTrackCustom p.1 p.2) evs ++ [CallStop]) w)
     = deliveredEvents w ++ _eventBatch (agent w) ++ map (λ p, enrich p.1 p.2 w) evs)
  ∧ (is_Some (flushError (run (map (λ p, CallTrackCustom p.1 p.2) evs) w)) →
     deliveredEvents (run (map (λ p, CallTrackCustom p.1 p.2) evs ++ [CallStop]) w)
     = deliveredEvents w)
  ∧ (sendable w → Forall (λ p, serialisableEvent p.2 = true) evs →
     flushError (run (map (λ p, CallTrackCustom p.1 p.2) evs) w) = None).
Proof.
  intros Hi. destruct (tracked_batch evs w Hi) as [Ha Hh].
  split; [now rewrite Ha|].
  rewrite run_app. cbn [run perform].
  set (w1 := run (map (λ p, CallTrackCustom p.1 p.2) evs) w) in *.
  assert (Hi1 : _initialized (agent w1) = true) by now rewrite Ha.
  pose proof (stop_active_full w1 Hi1) as H. unfold wp in H.
  destruct H as (_ & _ & _ & _ & _ & _ & _ & _ & _ & _ & _ & _ & _ & Hf & _).
  split; [| split].
  - intros He. unfold deliveredEvents. rewrite Hf, Hh, map_app, concat_app. f_equal.
    unfold flushRequests, requestOf. rewrite He, Ha. cbn [_eventBatch set_eventBatch].
    destruct (_eventBatch (agent w) ++ map (λ p, enrich p.1 p.2 w) evs); cbn;
      [reflexivity | now rewrite app_nil_r].
  - intros [e He]. unfold deliveredEvents.
    rewrite Hf, Hh, (flushRequests_throws w1 e He), app_nil_r. reflexivity.
  - intros Hs Hevs. apply sendable_flushError, run_sendable; [exact Hs|].
    apply Forall_fmap. exact Hevs.
Qed.



(** ** Runs of the agent *)

Lemma consistent_inactive w :
  consistent w → _initialized (agent w) = false →
  listeners (host w) = [] ∧ intervals (host w) = [].
Proof.
  intros (_ & Hl & Ht & _ & Hoff) Hi. destruct (Hoff Hi) as [Hel Hbt].
  rewrite Hel in Hl. rewrite Hbt in Ht. split; [exact Hl|]. now apply fmap_nil_inv in Ht.
Qed.

(** X16. In every run from a freshly loaded script in a host without
    listeners and timers, where [fetch] is at hand and every site identifier
    and all custom data can be serialised: the DOM holds exactly the
    listeners recorded in [_eventListeners]; the only running timer is
    [_batchTimer], so at most one timer runs; and while the agent is not
    initialised no listener is registered, no timer runs and a timer callback
    does nothing. *)
Theorem run_keeps_agent_and_host_in_step h actions :
  pristine h → fetch h = FetchFunction → Forall serialisableAction actions →
  listeners (host (run actions (loaded h)))
  = map registrationOf (_eventListeners (agent (run actions (loaded h))))
  ∧ (intervals (host (run actions (loaded h)))).*1
    = match _batchTimer (agent (run actions (loaded h))) with
      | Some t => [t]
      | None => []
      end
  ∧ (length (intervals (host (run actions (loaded h)))) <= 1)%nat
  ∧ (_initialized (agent (run actions (loaded h))) = false →
     listeners (host (run actions (loaded h))) = []
     ∧ intervals (host (run actions (loaded h))) = []
     ∧ ∀ t, timerFires t (run actions (loaded h)) = (Normal tt, run actions (loaded h))).
Proof.
  intros Hp Hf Ha.
  pose proof (run_consistent actions (loaded h) (loaded_consistent h Hp)
                (loaded_sendable h Hf) Ha) as Hc.
  set (w := run actions (loaded h)) in *.
  pose proof Hc as (_ & Hl & Ht & _ & _).
  split; [exact Hl|]. split; [exact Ht|].
  split.
  { rewrite <- (length_fmap fst), Ht. destruct (_batchTimer (agent w)); cbn; lia. }
  intros Hi. destruct (consistent_inactive w Hc Hi) as [Hnl Hni].
  split; [exact Hnl|]. split; [exact Hni|].
  intros t. unfold timerFires. rewrite Hni. reflexivity.
Qed.

Lemma stop_leaves_inactive w : _initialized (agent (stop w).2) = false.
Proof.
  destruct (_initialized (agent w)) eqn:Hi.
  - pose proof (stop_active_full w Hi) as H. unfold wp in H. apply H.
  - now rewrite (stop_when_inactive w Hi).
Qed.

(** X17. After whatever run in which [fetch] is at hand and every site
    identifier and all custom data can be serialised, a [stop] leaves the
    agent not initialised, with no recorded or registered listener and no
    timer. *)
Theorem stop_tears_everything_down h actions :
  pristine h → fetch h = FetchFunction → Forall serialisableAction actions →
  _initialized (agent (run (actions ++ [CallStop]) (loaded h))) = false
  ∧ _eventListeners (agent (run (actions ++ [CallStop]) (loaded h))) = []
  ∧ _batchTimer (agent (run (actions ++ [CallStop]) (loaded h))) = None
  ∧ listeners (host (run (actions ++ [CallStop]) (loaded h))) = []
  ∧ intervals (host (run (actions ++ [CallStop]) (loaded h))) = [].
Proof.
  intros Hp Hf Ha.
  assert (Ha' : Forall serialisableAction (actions ++ [CallStop])).
  { apply Forall_app. split; [exact Ha|]. repeat constructor. }
  pose proof (run_consistent (actions ++ [CallStop]) (loaded h) (loaded_consistent h Hp)
                (loaded_sendable h Hf) Ha') as Hc.
  rewrite run_app in *. cbn [run perform] in *.
  set (w := run actions (loaded h)) in *.
  pose proof (stop_leaves_inactive w) as Hi.
  destruct (consistent_inactive _ Hc Hi) as [Hnl Hni].
  destruct Hc as (_ & _ & _ & _ & Hoff). destruct (Hoff Hi) as [Hel Hbt].
  auto.
Qed.

Lemma transitions_chain states : ∀ previous i f t f' t',
  transitions previous states !! i = Some (f, t) →
  transitions previous states !! S i = Some (f', t') →
  f' = t.
Proof.
  induction states as [| s rest IH]; intros previous i f t f' t'; [discriminate|].
  destruct i as [| i]; cbn [transitions lookup list_lookup].
  - intros [= <- <-]. destruct rest; cbn; [discriminate|]. now intros [= <- _].
  - apply IH.
Qed.

(** X19. For successive visibility states the handler records one event
    each, in order; the first event's [from] is the state remembered when the
    listeners were attached, every later event's [from] is the [to] of the
    event before it, and the state remembered at the end is the last one
    seen. *)
Theorem visibility_events_chain states previous w :
  (visibilityChanges states previous w).1 = Normal (List.last states previous)
  ∧ _eventBatch (agent (visibilityChanges states previous w).2)
    = _eventBatch (agent w)
      ++ map (λ ft, enrich "visibilityChange"
                      (<[ "to" := VStr ft.2 ]> {[ "from" := VStr ft.1 ]}) w)
             (transitions previous states)
  ∧ length (transitions previous states) = length states
  ∧ (∀ f t, transitions previous states !! 0%nat = Some (f, t) → f = previous)
  ∧ (∀ i f t f' t',
       transitions previous states !! i = Some (f, t) →
       transitions previous states !! S i = Some (f', t') →
       f' = t).
Proof.
  rewrite visibilityChanges_spec. cbn [fst snd].
  split; [reflexivity|]. split; [reflexivity|].
  split.
  { revert previous. induction states as [| s rest IH]; intros previous; cbn; auto. }
  split.
  { intros f t. destruct states; cbn; [discriminate|]. now intros [= <- _]. }
  apply transitions_chain.
Qed.

(** X8. Without a stored identifier and without [randomUUID], the
    identifier built from [getRandomValues] has the 8-4-4-4-12 shape of
    lower-case hexadecimal digits, whatever bytes the host delivers and
    whatever the state of storage. *)
Theorem getOrCreateUserId_fallback_is_uuid_shaped w fill :
  storedUserId w = None →
  crypto (host w) = CryptoPresent {| randomUUID := None; getRandomValues := Some fill |} →
  ∃ uid, (getOrCreateUserId w).1 = Normal uid ∧ uuidShaped uid = true.
Proof.
  intros Hs Hc.
  destruct (getOrCreateUserId_created w _ _ Hs Hc eq_refl) as (Hr & _).
  eexists. split; [exact Hr|]. apply fallback_uuidShaped.
Qed.

(** X3. The registry only grows.  After any sequence of requests every
    stored entry carries the hash of its key and a count of at least one; a
    request keeps every stored entry, with the same identifier and a count
    raised by at most one; it changes no entry but that of its own signature;
    and the built-in objects marked by [entry.count++] stay marked. *)
Theorem registry_entries_persist inputs :
  entriesWellFormed (requestAll inputs emptyZenMapping).2
  ∧ (∀ x m s e, ownEntries m !! s = Some e →
       ∃ e', ownEntries (generateStableZenId x m).2 !! s = Some e'
             ∧ id e' = id e ∧ count e <= count e' <= count e + 1)
  ∧ (∀ x m s, generateElementSignature x ≠ Some s →
       ownEntries (generateStableZenId x m).2 !! s = ownEntries m !! s)
  ∧ (∀ x m, countedBuiltins m ⊆ countedBuiltins (generateStableZenId x m).2).
Proof.
  split.
  { apply requestAll_wellFormed. intros s e H. cbn in H.
    rewrite lookup_empty in H. discriminate. }
  split; [intros x m s e; apply generateStableZenId_monotone|].
  split; [intros x m s; apply generateStableZenId_other_entries|].
  intros x m.
  destruct (generateElementSignature x) as [s'|] eqn:Hs;
    [| unfold generateStableZenId; now rewrite Hs].
  destruct (lookupIn m s') as [entry|] eqn:Hl.
  - destruct (generateStableZenId_known x m s' entry Hs Hl) as (newId & _ & ->).
    destruct entry; cbn; set_solver.
  - unfold generateStableZenId. rewrite Hs, (signature_truthy _ _ Hs), Hl. reflexivity.
Qed.

(** X2. After any sequence of earlier requests from an empty registry, a
    request for an ordinary signature (not a key inherited from
    [Object.prototype], not [count]) returns the identifier numbered by how
    often the signature was requested before, plus one; and whatever is
    requested in between, a later request for the same signature returns a
    different identifier. *)
Theorem interleaved_requests_numbered_and_distinct before el s :
  generateElementSignature (Some el) = Some s →
  s ∉ objectPrototypeKeys → s ≠ "count" →
  (generateStableZenId (Some el) (requestAll before emptyZenMapping).2).1
  = Normal (Some (numberedId s (Z.of_nat (occurrences s before) + 1)))
  ∧ ∀ between el2,
      generateElementSignature (Some el2) = Some s →
      (generateStableZenId (Some el2)
         (requestAll (before ++ Some el :: between) emptyZenMapping).2).1
      ≠ (generateStableZenId (Some el) (requestAll before emptyZenMapping).2).1.
Proof.
  intros Hs Hk Hc.
  split; [now apply request_numbered_after|].
  intros between el2 Hs2.
  rewrite (request_numbered_after before el s Hs Hk Hc).
  rewrite (request_numbered_after _ el2 s Hs2 Hk Hc).
  intros [= E]. apply numberedId_injective in E; [| lia | lia].
  assert (occurrences s (before ++ Some el :: between)
          = (occurrences s before + S (occurrences s between))%nat).
  { unfold occurrences. rewrite filter_app, length_app, filter_cons_True by exact Hs.
    reflexivity. }
  lia.
Qed.

(** ** Signatures without a bar *)
















(** ** When the flush throws *)




(** ** The further properties at sample inputs *)

Lemma requestTimes_numbered_witness :
  (requestTimes 3 goButton emptyZenMapping).1 !! (3 - 1)%nat
  = Some (Normal (Some (numberedId "button|id:go|text:Go" (Z.of_nat 3))))
  ∧ ownEntries (requestTimes 3 goButton emptyZenMapping).2 !! "button|id:go|text:Go"
    = Some {| id := "zen-" +:+ fnv32a "button|id:go|text:Go"; count := Z.of_nat 3 |}.
Proof.
  assert (Hs : generateElementSignature (Some goButton) = Some "button|id:go|text:Go")
    by (vm_compute; reflexivity).
  assert (Hl : lookupIn emptyZenMapping "button|id:go|text:Go" = None)
    by (vm_compute; reflexivity).
  destruct (requestTimes_numbered goButton "button|id:go|text:Go" emptyZenMapping 3 Hs Hl
              ltac:(lia)) as [Hr Hc].
  split; [apply Hr; lia | exact Hc].
Defined.

Lemma interleaved_requests_numbered_and_distinct_witness :
  (generateStableZenId (Some styledGoButton)
     (requestAll [Some goButton; Some constructorElement; Some goButton]
        emptyZenMapping).2).1
  = Normal (Some (numberedId "button|id:go|text:Go"
      (Z.of_nat (occurrences "button|id:go|text:Go"
                   [Some goButton; Some constructorElement; Some goButton]) + 1)))
  ∧ occurrences "button|id:go|text:Go"
      [Some goButton; Some constructorElement; Some goButton] = 2%nat.
Proof.
  assert (Hs : generateElementSignature (Some styledGoButton) = Some "button|id:go|text:Go")
    by (vm_compute; reflexivity).
  assert (Hk : "button|id:go|text:Go" ∉ objectPrototypeKeys).
  { apply (proj1 (bool_decide_eq_false _)). vm_compute. reflexivity. }
  assert (Hc : "button|id:go|text:Go" ≠ "count") by discriminate.
  destruct (interleaved_requests_numbered_and_distinct
              [Some goButton; Some constructorElement; Some goButton]
              styledGoButton "button|id:go|text:Go" Hs Hk Hc) as [Hn _].
  split; [exact Hn | vm_compute; reflexivity].
Defined.

Lemma labelElement_idempotent_witness :
  labelElement (labelElement (ElementNode goButton) emptyZenMapping).1.2
               (labelElement (ElementNode goButton) emptyZenMapping).2
  = (Normal tt, (labelElement (ElementNode goButton) emptyZenMapping).1.2,
     (labelElement (ElementNode goButton) emptyZenMapping).2).
Proof.
  apply (labelElement_idempotent (ElementNode goButton) emptyZenMapping).
  vm_compute. reflexivity.
Defined.

Lemma getOrCreateUserId_second_call_returns_same_witness :
  storedUserId (getOrCreateUserId (loaded modernHost)).2
  = Some "3b241101-e2bb-4255-8caf-4136c566a962"
  ∧ getOrCreateUserId (getOrCreateUserId (loaded modernHost)).2
    = (Normal "3b241101-e2bb-4255-8caf-4136c566a962",
       (getOrCreateUserId (loaded modernHost)).2).
Proof.
  apply (getOrCreateUserId_second_call_returns_same ∅ (loaded modernHost)).
  - reflexivity.
  - vm_compute. reflexivity.
  - discriminate.
Defined.

Lemma getOrCreateUserId_fallback_is_uuid_shaped_witness :
  ∃ uid, (getOrCreateUserId (loaded olderHost)).1 = Normal uid ∧ uuidShaped uid = true.
Proof.
  apply (getOrCreateUserId_fallback_is_uuid_shaped (loaded olderHost)
           (λ i, 17 * Z.of_nat i + 3)); reflexivity.
Defined.


Lemma stop_removes_own_listeners_only_witness :
  _initialized (agent startedWorld) = true
  ∧ (stop startedWorld).1 = Normal tt
  ∧ _eventListeners (agent (stop startedWorld).2) = []
  ∧ (stop bigIntWorld).1 = Throw TypeError
  ∧ _initialized (agent (stop bigIntWorld).2) = false
  ∧ _batchTimer (agent (stop bigIntWorld).2) = _batchTimer (agent bigIntWorld)
  ∧ intervals (host (stop bigIntWorld).2) = intervals (host bigIntWorld).
Proof.
  assert (Hi : _initialized (agent startedWorld) = true) by (vm_compute; reflexivity).
  assert (He : flushError startedWorld = None) by (vm_compute; reflexivity).
  assert (Hi' : _initialized (agent bigIntWorld) = true) by (vm_compute; reflexivity).
  assert (He' : flushError bigIntWorld = Some TypeError) by (vm_compute; reflexivity).
  destruct (stop_removes_own_listeners_only startedWorld Hi) as (H1 & _ & H2 & _).
  destruct (stop_removes_own_listeners_only bigIntWorld Hi')
    as (H1' & H2' & _ & _ & _ & H3' & _).
  rewrite He in H1. rewrite He' in H1'.
  destruct H3' as (Hb & Hv & _); [rewrite He'; eauto|].
  auto 10.
Defined.

Lemma stop_flushes_once_witness :
  _initialized (agent recordedWorld) = true
  ∧ fetched (host (stop recordedWorld).2)
    = fetched (host recordedWorld) ++ [requestOf recordedWorld]
  ∧ _eventBatch (agent (stop recordedWorld).2) = _eventBatch (agent recordedWorld)
  ∧ fetched (host (stop bigIntWorld).2) = fetched (host bigIntWorld).
Proof.
  assert (Hi : _initialized (agent recordedWorld) = true) by (vm_compute; reflexivity).
  assert (Hlen : length (_eventBatch (agent recordedWorld)) = 1%nat)
    by (vm_compute; reflexivity).
  assert (Hn : _eventBatch (agent recordedWorld) ≠ []).
  { intros E. rewrite E in Hlen. discriminate Hlen. }
  assert (He : flushError recordedWorld = None) by (vm_compute; reflexivity).
  assert (Hi' : _initialized (agent bigIntWorld) = true) by (vm_compute; reflexivity).
  assert (He' : flushError bigIntWorld = Some TypeError) by (vm_compute; reflexivity).
  destruct (stop_flushes_once recordedWorld Hi) as (_ & Hf & _ & Hb).
  destruct (stop_flushes_once bigIntWorld Hi') as (_ & _ & Ht & _).
  destruct (Hf Hn He) as (_ & Hf' & _).
  destruct (Ht _ He') as (_ & Ht' & _). auto.
Defined.

Lemma overlapping_flushes_resend_witness :
  fetched (host (flushEventBatch (flushEventBatch recordedWorld).2).2)
  = fetched (host recordedWorld) ++ [requestOf recordedWorld; requestOf recordedWorld]
  ∧ _eventBatch (agent (flushEventBatch (flushEventBatch recordedWorld).2).2)
    = _eventBatch (agent recordedWorld).
Proof.
  assert (Hlen : length (_eventBatch (agent recordedWorld)) = 1%nat)
    by (vm_compute; reflexivity).
  assert (Hn : _eventBatch (agent recordedWorld) ≠ []).
  { intros E. rewrite E in Hlen. discriminate Hlen. }
  assert (He : flushError recordedWorld = None) by (vm_compute; reflexivity).
  exact (overlapping_flushes_resend recordedWorld Hn He).
Defined.

Lemma clickHandler_records_the_label_witness :
  labelElement (ElementNode goButton) (__zenMapping (agent startedWorld))
  = (Normal tt, ElementNode (setAttribute goButton "data-zenid" "zen-1n7tf2r"),
     __zenMapping (agent (clickHandler (ElementNode goButton) 0 10 20 startedWorld).2)).
Proof.
  assert (H : (clickHandler (ElementNode goButton) 0 10 20 startedWorld).1
              = Normal (ElementNode (setAttribute goButton "data-zenid" "zen-1n7tf2r")))
    by (vm_compute; reflexivity).
  destruct (clickHandler_records_the_label (ElementNode goButton) 0 10 20 startedWorld _ H)
    as (el & el' & _ & _ & Hl & _).
  exact Hl.
Defined.

Lemma tracked_events_sent_in_order_by_stop_witness :
  _eventBatch (agent (run (map (λ p, CallTrackCustom p.1 p.2)
                             [("first", ∅); ("purchase", overridingData)]) startedWorld))
  = _eventBatch (agent startedWorld)
    ++ map (λ p, enrich p.1 p.2 startedWorld) [("first", ∅); ("purchase", overridingData)].
Proof.
  assert (Hi : _initialized (agent startedWorld) = true) by (vm_compute; reflexivity).
  destruct (tracked_events_sent_in_order_by_stop startedWorld
              [("first", ∅); ("purchase", overridingData)] Hi) as (Hb & _).
  exact Hb.
Defined.

Lemma raceRun_serialisable : Forall serialisableAction raceRun.
Proof. repeat (constructor; [first [exact I | vm_compute; reflexivity] |]). constructor. Qed.

Lemma run_keeps_agent_and_host_in_step_witness :
  listeners (host (run raceRun (loaded modernHost)))
  = map registrationOf (_eventListeners (agent (run raceRun (loaded modernHost))))
  ∧ (length (intervals (host (run raceRun (loaded modernHost)))) <= 1)%nat.
Proof.
  assert (Hp : pristine modernHost) by (repeat split).
  destruct (run_keeps_agent_and_host_in_step modernHost raceRun Hp eq_refl
              raceRun_serialisable) as (H1 & _ & H3 & _).
  auto.
Defined.

Lemma stop_tears_everything_down_witness :
  _initialized (agent (run ([CallInit sampleConfig; CallTrackCustom "first" ∅] ++ [CallStop])
                           (loaded modernHost))) = false
  ∧ listeners (host (run ([CallInit sampleConfig; CallTrackCustom "first" ∅] ++ [CallStop])
                         (loaded modernHost))) = []
  ∧ intervals (host (run ([CallInit sampleConfig; CallTrackCustom "first" ∅] ++ [CallStop])
                         (loaded modernHost))) = [].
Proof.
  assert (Hp : pristine modernHost) by (repeat split).
  assert (Ha : Forall serialisableAction [CallInit sampleConfig; CallTrackCustom "first" ∅]).
  { repeat (constructor; [first [exact I | vm_compute; reflexivity] |]). constructor. }
  destruct (stop_tears_everything_down modernHost
              [CallInit sampleConfig; CallTrackCustom "first" ∅] Hp eq_refl Ha)
    as (H1 & _ & _ & H4 & H5).
  auto.
Defined.


